(** * Game of Invasions (goi.c): the rule engine, the worker partitions and
      the generation loop, embedded as Rocq functions.

    Conventions of the embedding.
    - A C [int] is a [Z].  Inside [getNextState] every intermediate value is
      a coordinate shifted by at most one or a counter bounded by nine, so no
      32-bit overflow can arise for a cell of the grid; where the source can
      overflow on inputs it may receive ([nRows * nCols], [deathToll++]) the
      operation is checked and overflow is undefined behaviour.
    - A grid ([int *]) is a [list Z] in row-major order.
    - Undefined behaviour of the C program (reading or writing outside an
      array, using or freeing a block that is not live, signed overflow,
      division by zero) is the result [None].
    - Of the pthread layer the model keeps what decides the result: the
      workers are created inside the first pass of the generation loop, a
      failed [pthread_create] ends the process with [exit(-1)], and the join
      after the loop reads the handles of [threads], which hold nothing
      unless that first pass has run (joining such a handle is undefined).
      The gates and the barrier are not modelled: between two barriers the
      workers write disjoint cells of the next buffer and add to the death
      toll under the mutex, so the work of one generation is the work of
      the workers taken one after the other.
    - The loop counters are C ints: [i++] at [INT_MAX] is undefined. *)

From stdpp Require Import base option list list_numbers gmap.
From Stdlib Require Import ZArith Lia.

Local Open Scope Z_scope.

(** ** Constants and the three rule predicates *)

Definition MAX_FACTIONS : Z := 10.
Definition DEAD_FACTION : Z := 0.

Definition INT_MAX : Z := 2147483647.
Definition INT_MIN : Z := -2147483648.

Definition isBirthable (n : Z) : bool := n =? 3.

Definition isSurvivable (n : Z) : bool := (n =? 2) || (n =? 3).

Definition willFight (n : Z) : bool := 0 <? n.

(** ** Grid access (util.c) *)

(** Modelled from the spec: [getValueAt] of util.c, declared in util.h and
    absent from the sources.  Positions outside [0,nRows) x [0,nCols) "simply
    do not exist": the helper answers a negative value there (-1), which the
    guard [faction >= DEAD_FACTION] of [getNextState] discards; inside the
    grid it reads the row-major cell [row * nCols + col], a read past the
    buffer being undefined. *)
Definition getValueAt (grid : list Z) (nRows nCols row col : Z) : option Z :=
  if (row <? 0) || (nRows <=? row) || (col <? 0) || (nCols <=? col)
  then Some (-1)
  else grid !! Z.to_nat (row * nCols + col).

(** Modelled from the spec: [setValueAt] of util.c, declared in util.h and
    absent from the sources.  It writes [next[index]] for a position of the
    grid and does nothing outside it; a write past the buffer is undefined. *)
Definition setValueAt (grid : list Z) (nRows nCols row col val : Z)
  : option (list Z) :=
  if (row <? 0) || (nRows <=? row) || (col <? 0) || (nCols <=? col)
  then Some grid
  else
    let i := Z.to_nat (row * nCols + col) in
    if decide (i < length grid)%nat then Some (<[i := val]> grid) else None.

(** ** Loops *)

(** [for (i = lo; i < hi; i++) s = body i s], with a fallible body. *)
Fixpoint forLoop {S : Type} (n : nat) (i : Z) (body : Z → S → option S) (s : S)
  : option S :=
  match n with
  | O => Some s
  | Datatypes.S n' => s' ← body i s; forLoop n' (i + 1) body s'
  end.

Definition forRange {S : Type} (lo hi : Z) (body : Z → S → option S) (s : S)
  : option S :=
  forLoop (Z.to_nat (hi - lo)) lo body s.

(** ** The rule engine: getNextState *)

(** [neighborCounts[faction]++]. *)
Definition incrCount (counts : list Z) (faction : Z) : option (list Z) :=
  if faction <? 0 then None
  else c ← counts !! Z.to_nat faction;
       Some (<[Z.to_nat faction := c + 1]> counts).

(** [neighborCounts[faction]--]. *)
Definition decrCount (counts : list Z) (faction : Z) : option (list Z) :=
  if faction <? 0 then None
  else c ← counts !! Z.to_nat faction;
       Some (<[Z.to_nat faction := c - 1]> counts).

(** The body of the two nested counting loops (lines 73-77). *)
Definition countAt (currWorld : list Z) (nRows nCols row col dy dx : Z)
    (counts : list Z) : option (list Z) :=
  faction ← getValueAt currWorld nRows nCols (row + dy) (col + dx);
  if DEAD_FACTION <=? faction then incrCount counts faction else Some counts.

(** Lines 65-82: the zeroed array, the 3 x 3 tally (self included) and the
    adjustment for the cell itself. *)
Definition neighborCounts (currWorld : list Z) (nRows nCols row col : Z)
    (cellFaction : Z) : option (list Z) :=
  counts ← forRange (-1) 2 (λ dy counts,
              forRange (-1) 2 (λ dx counts,
                 countAt currWorld nRows nCols row col dy dx counts) counts)
            (replicate (Z.to_nat MAX_FACTIONS) 0);
  decrCount counts cellFaction.

(** Lines 90-102: the birth scan of a dead cell. *)
Definition birthScan (counts : list Z) : option Z :=
  forRange (DEAD_FACTION + 1) MAX_FACTIONS (λ faction newFaction,
     count ← counts !! Z.to_nat faction;
     Some (if isBirthable count then faction else newFaction)) DEAD_FACTION.

(** Lines 114-122: the hostile count of a live cell. *)
Definition hostileScan (counts : list Z) (cellFaction : Z) : option Z :=
  forRange (DEAD_FACTION + 1) MAX_FACTIONS (λ faction hostileCount,
     if faction =? cellFaction then Some hostileCount
     else c ← counts !! Z.to_nat faction; Some (hostileCount + c)) 0.

(** The overlay test of line 58, with C's short-circuit [&&]: the value that
    lands on the cell, if any. *)
Definition landedOn (invaders : option (list Z)) (nRows nCols row col : Z)
  : option (option Z) :=
  match invaders with
  | None => Some None
  | Some inv =>
      v ← getValueAt inv nRows nCols row col;
      Some (if v =? DEAD_FACTION then None else Some v)
  end.

(** [getNextState]: the next faction of the cell and the flag written to
    [*diedDueToFighting]. *)
Definition getNextState (currWorld : list Z) (invaders : option (list Z))
    (nRows nCols row col : Z) : option (Z * bool) :=
  cellFaction ← getValueAt currWorld nRows nCols row col;
  landed ← landedOn invaders nRows nCols row col;
  match landed with
  | Some v => Some (v, negb (cellFaction =? DEAD_FACTION))
  | None =>
      counts ← neighborCounts currWorld nRows nCols row col cellFaction;
      if cellFaction =? DEAD_FACTION then
        newFaction ← birthScan counts;
        Some (newFaction, false)
      else
        hostileCount ← hostileScan counts cellFaction;
        if willFight hostileCount then Some (DEAD_FACTION, true)
        else
          friendlyCount ← counts !! Z.to_nat cellFaction;
          if negb (isSurvivable friendlyCount) then Some (DEAD_FACTION, false)
          else Some (cellFaction, false)
  end.

(** ** What the rules are stated about: the eight neighbours of a cell *)

Definition inGrid (nRows nCols r c : Z) : bool :=
  (0 <=? r) && (r <? nRows) && (0 <=? c) && (c <? nCols).

(** The faction stored at a position of the grid. *)
Definition cellAt (world : list Z) (nCols r c : Z) : Z :=
  default 0 (world !! Z.to_nat (r * nCols + c)).

Definition neighbourOffsets : list (Z * Z) :=
  [(-1,-1); (-1,0); (-1,1); (0,-1); (0,1); (1,-1); (1,0); (1,1)].

(** The position [(row + dy, col + dx)] exists and holds faction [f]. *)
Definition holdsFaction (world : list Z) (nRows nCols row col f : Z)
    (d : Z * Z) : bool :=
  inGrid nRows nCols (row + d.1) (col + d.2)
  && (cellAt world nCols (row + d.1) (col + d.2) =? f).

Fixpoint countWhere {A : Type} (p : A → bool) (l : list A) : Z :=
  match l with
  | [] => 0
  | x :: l' => (if p x then 1 else 0) + countWhere p l'
  end.

(** Number of existing neighbours of [(row, col)] that hold faction [f]. *)
Definition neighbourCount (world : list Z) (nRows nCols row col f : Z) : Z :=
  countWhere (holdsFaction world nRows nCols row col f) neighbourOffsets.

(** Number of neighbour positions of [(row, col)] that exist. *)
Definition neighboursInGrid (nRows nCols row col : Z) : Z :=
  countWhere (λ d : Z * Z, inGrid nRows nCols (row + d.1) (col + d.2))
             neighbourOffsets.

Fixpoint sumOver (fs : list Z) (g : Z → Z) : Z :=
  match fs with
  | [] => 0
  | f :: fs' => g f + sumOver fs' g
  end.

(** The live faction ids 1 .. K-1. *)
Definition liveFactions : list Z := seqZ 1 (MAX_FACTIONS - 1).

(** Sum of the neighbour counts of the live factions other than [own]. *)
Definition hostileNeighbours (world : list Z) (nRows nCols row col own : Z) : Z :=
  sumOver liveFactions
    (λ f, if f =? own then 0 else neighbourCount world nRows nCols row col f).

(** The invariant of the data model: a grid of [nRows * nCols] cells, every
    one a faction id in [0, K). *)
Definition validGrid (grid : list Z) (nRows nCols : Z) : Prop :=
  0 ≤ nRows ∧ 0 ≤ nCols ∧ length grid = Z.to_nat (nRows * nCols)
  ∧ Forall (λ v, 0 ≤ v < MAX_FACTIONS) grid.

(** A grid buffer of the right size, whatever it holds. *)
Definition sizedGrid (grid : list Z) (nRows nCols : Z) : Prop :=
  0 ≤ nRows ∧ 0 ≤ nCols ∧ length grid = Z.to_nat (nRows * nCols).

(** No overlay applies to the cell: the overlay is absent, or zero there. *)
Definition noOverlayAt (invaders : option (list Z)) (nRows nCols row col : Z)
  : Prop :=
  match invaders with
  | None => True
  | Some inv => getValueAt inv nRows nCols row col = Some 0
  end.

(** ** The worker: subroutine *)

Definition getRow (nRows nCols index : Z) : option Z :=
  if nCols =? 0 then None else Some (index ÷ nCols).

Definition getCol (nRows nCols index : Z) : option Z :=
  if nCols =? 0 then None else Some (Z.rem index nCols).

(** The increment of the shared death toll, a C int (line 184). *)
Definition incrToll (deathToll : Z) : option Z :=
  if deathToll <? INT_MAX then Some (deathToll + 1) else None.

(** Lines 171-186: what a worker does for cell index [i]; the state is the
    next buffer and the shared death toll. *)
Definition workerCell (world : list Z) (inv : option (list Z))
    (nRows nCols : Z) (i : Z) (st : list Z * Z) : option (list Z * Z) :=
  let '(wholeNewWorld, deathToll) := st in
  row ← getRow nRows nCols i;
  col ← getCol nRows nCols i;
  '(nextState, diedDueToFighting) ← getNextState world inv nRows nCols row col;
  wholeNewWorld' ← setValueAt wholeNewWorld nRows nCols row col nextState;
  if diedDueToFighting : bool
  then deathToll' ← incrToll deathToll; Some (wholeNewWorld', deathToll')
  else Some (wholeNewWorld', deathToll).

Record partition := Partition { startIdx : Z; endIdx : Z }.

(** One generation of one worker (the body of the [k] loop of [subroutine],
    between the gate and the barrier). *)
Definition subroutineStep (world : list Z) (inv : option (list Z))
    (nRows nCols : Z) (p : partition) (st : list Z * Z)
  : option (list Z * Z) :=
  forRange (startIdx p) (endIdx p) (workerCell world inv nRows nCols) st.

(** All workers of one generation.  The threads write disjoint cells of the
    next buffer and only add to the death toll under the mutex, so they are
    run one after the other, in thread order. *)
Fixpoint runWorkers (world : list Z) (inv : option (list Z))
    (nRows nCols : Z) (parts : list partition) (st : list Z * Z)
  : option (list Z * Z) :=
  match parts with
  | [] => Some st
  | p :: parts' =>
      st' ← subroutineStep world inv nRows nCols p st;
      runWorkers world inv nRows nCols parts' st'
  end.

(** ** The partitions built by goi (lines 216-218, 236-272) *)

(** The loop over the first [nThreads - 1] workers; [fmin] on two ints that
    a double represents exactly is the integer minimum. *)
Fixpoint firstWorkers (n : nat) (index threadSize totalGrids : Z)
  : list partition * Z :=
  match n with
  | O => ([], index)
  | S n' =>
      let item := Partition index (Z.min (index + threadSize) totalGrids) in
      let '(items, index') :=
        firstWorkers n' (index + threadSize) threadSize totalGrids in
      (item :: items, index')
  end.

Definition makePartitions (nThreads totalGrids : Z) : list partition :=
  let threadSize := totalGrids ÷ nThreads in
  let '(items, index) :=
    firstWorkers (Z.to_nat (nThreads - 1)) 0 threadSize totalGrids in
  items ++ [Partition index totalGrids].

Definition partitionSize (p : partition) : Z := endIdx p - startIdx p.

Definition inPartition (i : Z) (p : partition) : Prop :=
  startIdx p ≤ i < endIdx p.

(** ** Memory: the blocks goi obtains from malloc *)

(** A block is a grid buffer (world copy, overlay copy, next buffer) or a
    worker control block (the [sharedStructs] array and the [shared] items,
    whose fields the model passes as arguments). *)
Inductive block :=
| Grid (cells : list Z)
| Control.

(** The live blocks, the next fresh address, the number of calls to malloc so
    far, and the worlds handed to the observer hooks ([printWorld],
    [exportWorld]), oldest first. *)
Record mem := Mem {
  heap : gmap nat block;
  brk : nat;
  mallocs : nat;
  observed : list (list Z)
}.

Definition emptyMem : mem := Mem ∅ 0 0 [].

(** What the program cannot choose: whether the k-th call of malloc succeeds,
    what the fresh block holds before it is written, and whether
    [pthread_create] succeeds for worker t. *)
Record env := Env {
  alloc_ok : nat → bool;
  garbage : nat → nat → Z;
  create_ok : nat → bool
}.

(** Computations on the memory; [None] is undefined behaviour. *)
Definition M (A : Type) : Type := mem → option (A * mem).

#[global] Instance M_ret : MRet M := λ A a m, Some (a, m).
#[global] Instance M_bind : MBind M := λ A B f c m,
  match c m with
  | Some (a, m') => f a m'
  | None => None
  end.

Definition undefined {A : Type} : M A := λ _, None.

Definition liftO {A : Type} (o : option A) : M A := λ m,
  match o with
  | Some a => Some (a, m)
  | None => None
  end.

(** [malloc]: [None] is the NULL pointer. *)
Definition malloc (e : env) (fresh : nat → block) : M (option nat) := λ m,
  if alloc_ok e (mallocs m)
  then Some (Some (brk m),
             Mem (<[brk m := fresh (mallocs m)]> (heap m)) (S (brk m))
                 (S (mallocs m)) (observed m))
  else Some (None, Mem (heap m) (brk m) (S (mallocs m)) (observed m)).

(** [free] of a block that is not live is undefined. *)
Definition free (p : nat) : M unit := λ m,
  match heap m !! p with
  | Some _ => Some (tt, Mem (delete p (heap m)) (brk m) (mallocs m) (observed m))
  | None => None
  end.

Definition loadGrid (p : nat) : M (list Z) := λ m,
  match heap m !! p with
  | Some (Grid cells) => Some (cells, m)
  | _ => None
  end.

Definition storeGrid (p : nat) (cells : list Z) : M unit := λ m,
  match heap m !! p with
  | Some (Grid _) =>
      Some (tt, Mem (<[p := Grid cells]> (heap m)) (brk m) (mallocs m) (observed m))
  | _ => None
  end.

(** The observer hooks of lines 274-281 and 355-362, taken as enabled. *)
Definition observe (cells : list Z) : M unit := λ m,
  Some (tt, Mem (heap m) (brk m) (mallocs m) (observed m ++ [cells])).

(** [exit]: the process ends and its memory with it; what the observer hooks
    have written stays written. *)
Definition exit : M unit := λ m,
  Some (tt, Mem ∅ (brk m) (mallocs m) (observed m)).

(** The uninitialised cells of the k-th block. *)
Definition freshGrid (e : env) (totalGrids : Z) (k : nat) : block :=
  Grid (garbage e k <$> seq 0 (Z.to_nat totalGrids)).

(** ** The coordinator: goi *)

Inductive goiResult :=
| Returned (value : Z)
| Exited (code : Z).

(** [nRows * nCols] on C ints. *)
Definition intMul (a b : Z) : option Z :=
  let r := a * b in
  if (INT_MIN <=? r) && (r <=? INT_MAX) then Some r else None.

(** The copy loops of lines 227-233 and 298-304. *)
Definition copyGrid (src dst : list Z) (nRows nCols : Z) : option (list Z) :=
  forRange 0 nRows (λ row g,
    forRange 0 nCols (λ col g,
      v ← getValueAt src nRows nCols row col;
      setValueAt g nRows nCols row col v) g) dst.

Definition copyInto (p : nat) (src : list Z) (nRows nCols : Z) : M unit :=
  dst ← loadGrid p;
  dst' ← liftO (copyGrid src dst nRows nCols);
  storeGrid p dst'.

(** The [malloc(sizeof(shared))] of each worker; the result is not checked,
    so a NULL is dereferenced at once. *)
Fixpoint allocItems (e : env) (parts : list partition) : M (list nat) :=
  match parts with
  | [] => mret []
  | _ :: parts' =>
      item ← malloc e (λ _, Control);
      match item with
      | None => undefined
      | Some item => items ← allocItems e parts'; mret (item :: items)
      end
  end.

Fixpoint freeItems (items : list nat) : M unit :=
  match items with
  | [] => mret tt
  | item :: items' => _ ← free item; freeItems items'
  end.

Definition freeIfNotNull (p : option nat) : M unit :=
  match p with
  | Some p => free p
  | None => mret tt
  end.

Definition loadIfNotNull (p : option nat) : M (option (list Z)) :=
  match p with
  | Some p => cells ← loadGrid p; mret (Some cells)
  | None => mret None
  end.

(** [i++] on a C int. *)
Definition intSucc (i : Z) : option Z :=
  if i <? INT_MAX then Some (i + 1) else None.

(** A counting loop that an iteration can leave with [return] or [exit]:
    [n] passes from counter [i]; the increment that follows each completed
    pass, the last one included, is an increment of a C int. *)
Fixpoint loopM {S R : Type} (n : nat) (i : Z) (body : Z → S → M (S + R)) (s : S)
  : M (S + R) :=
  match n with
  | O => mret (inl s)
  | Datatypes.S n' =>
      r ← body i s;
      match r with
      | inl s' => i' ← liftO (intSucc i); loopM n' i' body s'
      | inr v => mret (inr v)
      end
  end.

(** The state carried round the generation loop: the current world, the
    index of the next invasion, the death toll, and the flag [spawnThreads]
    (the workers have been created, so [threads] holds their handles). *)
Record simState := SimState {
  world : nat;
  invasionIndex : Z;
  deathToll : Z;
  spawnThreads : bool
}.

(** Lines 330-338, in the first pass only: [pthread_create] for workers
    0 .. nThreads-1 in turn; [false] when one of them fails. *)
Definition createThreads (e : env) (nThreads : Z) : bool :=
  forallb (create_ok e) (seq 0 (Z.to_nat nThreads)).

(** Lines 365-367: [pthread_join] on every handle of [threads] (there is at
    least one).  The array is an uninitialised local; its handles are valid
    only once the workers have been created. *)
Definition joinThreads (created : bool) : M unit :=
  if created then mret tt else undefined.

(** Lines 288-306: the overlay of generation [i].  The outer [None] is the
    failed allocation; otherwise the overlay pointer (or NULL) and the
    advanced invasion index. *)
Definition materialize (e : env) (nRows nCols totalGrids nInvasions : Z)
    (invasionTimes : list Z) (invasionPlans : list (list Z))
    (i : Z) (invasionIndex : Z) : M (option (option nat * Z)) :=
  if invasionIndex <? nInvasions then
    if invasionIndex <? 0 then undefined else
    time ← liftO (invasionTimes !! Z.to_nat invasionIndex);
    if i =? time then
      inv ← malloc e (freshGrid e totalGrids);
      match inv with
      | None => mret None
      | Some inv =>
          plan ← liftO (invasionPlans !! Z.to_nat invasionIndex);
          _ ← copyInto inv plan nRows nCols;
          mret (Some (Some inv, invasionIndex + 1))
      end
    else mret (Some (None, invasionIndex))
  else mret (Some (None, invasionIndex)).

(** Lines 286-363: one generation.  It ends the pass ([inl]), returns -1 from
    [goi], or exits the process when a worker cannot be created. *)
Definition generation (e : env) (nThreads nRows nCols totalGrids nInvasions : Z)
    (invasionTimes : list Z) (invasionPlans : list (list Z))
    (parts : list partition) (i : Z) (s : simState)
  : M (simState + goiResult) :=
  overlay ← materialize e nRows nCols totalGrids nInvasions invasionTimes
              invasionPlans i (invasionIndex s);
  match overlay with
  | None => _ ← free (world s); mret (inr (Returned (-1)))
  | Some (inv, invasionIndex') =>
      wholeNewWorld ← malloc e (freshGrid e totalGrids);
      match wholeNewWorld with
      | None =>
          _ ← freeIfNotNull inv; _ ← free (world s);
          mret (inr (Returned (-1)))
      | Some wholeNewWorld =>
          if negb (spawnThreads s) && negb (createThreads e nThreads)
          then _ ← exit; mret (inr (Exited (-1)))
          else
          current ← loadGrid (world s);
          invaders ← loadIfNotNull inv;
          next ← loadGrid wholeNewWorld;
          '(next', deathToll') ←
             liftO (runWorkers current invaders nRows nCols parts
                      (next, deathToll s));
          _ ← storeGrid wholeNewWorld next';
          _ ← freeIfNotNull inv;
          _ ← free (world s);
          _ ← observe next';
          mret (inl (SimState wholeNewWorld invasionIndex' deathToll' true))
      end
  end.

(** [goi].  Inputs outside the entry contract (fewer than one thread, a
    negative dimension) are not modelled. *)
Definition goi (e : env) (nThreads nGenerations : Z) (startWorld : list Z)
    (nRows nCols nInvasions : Z) (invasionTimes : list Z)
    (invasionPlans : list (list Z)) : M goiResult :=
  if (nThreads <? 1) || (nRows <? 0) || (nCols <? 0)
  then undefined else
  sharedStructs ← malloc e (λ _, Control);
  match sharedStructs with
  | None => _ ← exit; mret (Exited (-1))
  | Some sharedStructs =>
      totalGrids ← liftO (intMul nRows nCols);
      w ← malloc e (freshGrid e totalGrids);
      match w with
      | None => mret (Returned (-1))
      | Some w =>
          _ ← copyInto w startWorld nRows nCols;
          let parts := makePartitions nThreads totalGrids in
          items ← allocItems e parts;
          world0 ← loadGrid w;
          _ ← observe world0;
          r ← loopM (Z.to_nat nGenerations) 1
                (generation e nThreads nRows nCols totalGrids nInvasions
                   invasionTimes invasionPlans parts)
                (SimState w 0 0 false);
          match r with
          | inr result => mret result
          | inl s =>
              _ ← joinThreads (spawnThreads s);
              _ ← free (world s);
              _ ← freeItems items;
              _ ← free sharedStructs;
              mret (Returned (deathToll s))
          end
      end
  end.

(** No grid buffer is live: every live block is a control block. *)
Definition noGridLive (m : mem) : Prop :=
  map_Forall (λ _ b, b = Control) (heap m).

(** An environment in which every allocation and every thread creation
    succeeds and fresh memory holds the given junk. *)
Definition plentiful (junk : nat → nat → Z) : env :=
  Env (λ _, true) junk (λ _, true).

(** An environment in which exactly the k-th call of malloc fails. *)
Definition failingAt (k : nat) : env :=
  Env (λ n, negb (n =? k)%nat) (λ _ _, 7) (λ _, true).

(** An environment in which only the creation of worker t fails. *)
Definition unspawnable (t : nat) : env :=
  Env (λ _, true) (λ _ _, 7) (λ n, negb (n =? t)%nat).

(** The nine positions of the counting loops, in loop order, and the tally
    over any list of positions. *)
Definition windowOffsets : list (Z * Z) :=
  [(-1,-1); (-1,0); (-1,1); (0,-1); (0,0); (0,1); (1,-1); (1,0); (1,1)].

Fixpoint tallyOver (currWorld : list Z) (nRows nCols row col : Z)
    (ds : list (Z * Z)) (counts : list Z) : option (list Z) :=
  match ds with
  | [] => Some counts
  | d :: ds' =>
      counts' ← countAt currWorld nRows nCols row col d.1 d.2 counts;
      tallyOver currWorld nRows nCols row col ds' counts'
  end.

(** The outcome of the birth rule at a dead cell: [r] is the highest live
    faction with exactly three neighbours, or 0 when there is none. *)
Definition birthWinner (world : list Z) (nRows nCols row col r : Z) : Prop :=
  (r = DEAD_FACTION
   ∧ ∀ f, 1 ≤ f < MAX_FACTIONS → neighbourCount world nRows nCols row col f ≠ 3)
  ∨ (1 ≤ r < MAX_FACTIONS
     ∧ neighbourCount world nRows nCols row col r = 3
     ∧ ∀ f, r < f < MAX_FACTIONS →
         neighbourCount world nRows nCols row col f ≠ 3).

(** The flattened index of a cell. *)
Definition cellIndex (nCols row col : Z) : Z := row * nCols + col.

(** The overlay handed to [getNextState], when there is one, is a grid of
    faction ids of the same dimensions. *)
Definition validOverlay (invaders : option (list Z)) (nRows nCols : Z) : Prop :=
  match invaders with
  | None => True
  | Some inv => validGrid inv nRows nCols
  end.

(** The partitions follow one another from 0 to [totalGrids]. *)
Definition contiguous (ps : list partition) (totalGrids : Z) : Prop :=
  (∀ p, head ps = Some p → startIdx p = 0)
  ∧ (∀ p, last ps = Some p → endIdx p = totalGrids)
  ∧ (∀ t p q, ps !! t = Some p → ps !! S t = Some q → endIdx p = startIdx q)
  ∧ (∀ p, p ∈ ps → startIdx p ≤ endIdx p).

(** No two partitions share an index. *)
Definition pairwiseDisjoint (ps : list partition) : Prop :=
  ∀ t u p q i, ps !! t = Some p → ps !! u = Some q → t ≠ u →
               ¬ (inPartition i p ∧ inPartition i q).

(** The union of the partitions is [0, totalGrids), and every index of that
    range belongs to one worker and no other. *)
Definition coversExactlyOnce (ps : list partition) (totalGrids : Z) : Prop :=
  (∀ t p i, ps !! t = Some p → inPartition i p → 0 ≤ i < totalGrids)
  ∧ (∀ i, 0 ≤ i < totalGrids →
       ∃ t p, ps !! t = Some p ∧ inPartition i p
              ∧ ∀ u q, ps !! u = Some q → inPartition i q → u = t).

(** The bound on the imbalance as the specification words it: no partition
    is larger than another by more than one row of cells. *)
Definition imbalanceWithinOneRow (nThreads nRows nCols : Z) : Prop :=
  ∀ p q, p ∈ makePartitions nThreads (nRows * nCols) →
         q ∈ makePartitions nThreads (nRows * nCols) →
         partitionSize p - partitionSize q ≤ nCols.

(** The world without a live cell. *)
Definition deadWorld (nRows nCols : Z) : list Z :=
  replicate (Z.to_nat (nRows * nCols)) DEAD_FACTION.

(** The state of a worker on the dead world when it reaches index [j]: no
    death recorded, and the next buffer holds 0 at every index below [j]. *)
Definition deadBelow (total j : Z) (st : list Z * Z) : Prop :=
  st.2 = 0 ∧ length st.1 = Z.to_nat total
  ∧ ∀ k, 0 ≤ k < j → st.1 !! Z.to_nat k = Some DEAD_FACTION.

(** The state of a copy loop when it reaches index [j]: the destination
    agrees with the source at every index below [j]. *)
Definition copiedBelow (src : list Z) (total j : Z) (dst : list Z) : Prop :=
  length dst = Z.to_nat total
  ∧ ∀ k, 0 ≤ k < j → dst !! Z.to_nat k = src !! Z.to_nat k.

(** The memory between two generations of a run on the dead world: the
    current world [w] holds the dead world, the blocks of [ctrl] are the
    control blocks, nothing else is live, and the observer has seen the dead
    world [k] times. *)
Definition deadLayout (nRows nCols : Z) (ctrl : list nat) (k : nat) (w : nat)
    (m : mem) : Prop :=
  (∀ p, heap m !! p
        = if decide (p = w) then Some (Grid (deadWorld nRows nCols))
          else if decide (p ∈ ctrl) then Some Control else None)
  ∧ (w ∉ ctrl)
  ∧ (w < brk m)%nat
  ∧ (∀ p, p ∈ ctrl → (p < brk m)%nat)
  ∧ observed m = replicate k (deadWorld nRows nCols).

(** What the caller is left with: the result of goi and the blocks that are
    still live when it returns. *)
Definition outcome (r : option (goiResult * mem))
  : option (goiResult * list (nat * block)) :=
  '(v, m) ← r; Some (v, map_to_list (heap m)).

(** The worlds seen by the observer during a run. *)
Definition trace (r : option (goiResult * mem)) : option (list (list Z)) :=
  '(_, m) ← r; Some (observed m).

Definition blinker : list Z := [0;0;0; 1;1;1; 0;0;0].

(** Every live grid buffer is at an address that satisfies [P]. *)
Definition gridsIn (P : nat → Prop) (m : mem) : Prop :=
  ∀ p cells, heap m !! p = Some (Grid cells) → P p.

(** A world with one faction: every cell is dead or holds [f]. *)
Definition singleFaction (f : Z) (world : list Z) : Prop :=
  Forall (λ v, v = DEAD_FACTION ∨ v = f) world.

(** Lines 172-175: the result a worker computes for cell index [i]. *)
Definition nextCell (world : list Z) (inv : option (list Z))
    (nRows nCols i : Z) : option (Z * bool) :=
  row ← getRow nRows nCols i;
  col ← getCol nRows nCols i;
  getNextState world inv nRows nCols row col.

(** The next faction of cell [i], and whether the cell counts as a fighting
    death. *)
Definition nextFaction (world : list Z) (inv : option (list Z))
    (nRows nCols i : Z) : Z :=
  default DEAD_FACTION (fst <$> nextCell world inv nRows nCols i).

Definition diesFighting (world : list Z) (inv : option (list Z))
    (nRows nCols i : Z) : bool :=
  default false (snd <$> nextCell world inv nRows nCols i).

(** The next generation, cell by cell. *)
Definition nextWorld (world : list Z) (inv : option (list Z))
    (nRows nCols : Z) : list Z :=
  nextFaction world inv nRows nCols <$> seqZ 0 (nRows * nCols).

(** The number of fighting deaths among the cells [a, b). *)
Definition fightingDeaths (world : list Z) (inv : option (list Z))
    (nRows nCols a b : Z) : Z :=
  countWhere (diesFighting world inv nRows nCols) (seqZ a (b - a)).

(** The state of a worker that started at index [a] on the buffer [next0]
    with the toll [toll0] when it reaches index [j]. *)
Definition workerInv (world : list Z) (inv : option (list Z))
    (nRows nCols a : Z) (next0 : list Z) (toll0 j : Z) (st : list Z * Z)
  : Prop :=
  st.2 = toll0 + fightingDeaths world inv nRows nCols a j
  ∧ length st.1 = length next0
  ∧ ∀ k, 0 ≤ k →
      st.1 !! Z.to_nat k
      = if decide (a ≤ k < j)
        then Some (nextFaction world inv nRows nCols k)
        else next0 !! Z.to_nat k.

(** The state of a generation when all cells below [j] are done. *)
Definition doneBelow (world : list Z) (inv : option (list Z))
    (nRows nCols toll0 j : Z) (st : list Z * Z) : Prop :=
  st.2 = toll0 + fightingDeaths world inv nRows nCols 0 j
  ∧ length st.1 = Z.to_nat (nRows * nCols)
  ∧ ∀ k, 0 ≤ k < j →
      st.1 !! Z.to_nat k = Some (nextFaction world inv nRows nCols k).




(** * Properties *)

(** ** Loops and grid access *)

Lemma forLoop_invariant {St : Type} (P : Z → St → Prop) (body : Z → St → option St)
    (n : nat) (i : Z) (s : St) :
  P i s →
  (∀ j t, i ≤ j < i + Z.of_nat n → P j t →
          ∃ t', body j t = Some t' ∧ P (j + 1) t') →
  ∃ s', forLoop n i body s = Some s' ∧ P (i + Z.of_nat n) s'.
Proof.
  revert i s. induction n as [|n IH]; intros i s Hi Hstep.
  - exists s. split; [done|]. simpl. by rewrite Z.add_0_r.
  - destruct (Hstep i s) as (t & Ht & HP); [lia|done|].
    destruct (IH (i + 1) t) as (s' & Hs' & HP'); [done| |].
    + intros j u Hj. apply Hstep. lia.
    + exists s'. split.
      * simpl. rewrite Ht. simpl. done.
      * by replace (i + Z.of_nat (S n)) with (i + 1 + Z.of_nat n) by lia.
Qed.

Lemma forRange_invariant {St : Type} (P : Z → St → Prop)
    (body : Z → St → option St) (lo hi : Z) (s : St) :
  lo ≤ hi →
  P lo s →
  (∀ j t, lo ≤ j < hi → P j t → ∃ t', body j t = Some t' ∧ P (j + 1) t') →
  ∃ s', forRange lo hi body s = Some s' ∧ P hi s'.
Proof.
  intros Hle Hlo Hstep. unfold forRange.
  destruct (forLoop_invariant P body (Z.to_nat (hi - lo)) lo s) as (s' & E & HP);
    [done| |].
  - intros j t Hj. apply Hstep. lia.
  - exists s'. split; [done|].
    by replace (lo + Z.of_nat (Z.to_nat (hi - lo))) with hi in HP by lia.
Qed.

Lemma inGrid_true nRows nCols r c :
  inGrid nRows nCols r c = true ↔ 0 ≤ r < nRows ∧ 0 ≤ c < nCols.
Proof. unfold inGrid. rewrite !andb_true_iff. lia. Qed.

Lemma outside_inGrid nRows nCols r c :
  (r <? 0) || (nRows <=? r) || (c <? 0) || (nCols <=? c)
  = negb (inGrid nRows nCols r c).
Proof.
  unfold inGrid.
  destruct (Z.ltb_spec r 0), (Z.leb_spec nRows r), (Z.ltb_spec c 0),
    (Z.leb_spec nCols c), (Z.leb_spec 0 r), (Z.ltb_spec r nRows),
    (Z.leb_spec 0 c), (Z.ltb_spec c nCols); simpl; try reflexivity; lia.
Qed.

Lemma cell_index_lt nRows nCols r c :
  0 ≤ r < nRows → 0 ≤ c < nCols →
  (Z.to_nat (r * nCols + c) < Z.to_nat (nRows * nCols))%nat.
Proof. intros Hr Hc. apply Z2Nat.inj_lt; nia. Qed.

Lemma getValueAt_inGrid grid nRows nCols r c :
  sizedGrid grid nRows nCols →
  inGrid nRows nCols r c = true →
  getValueAt grid nRows nCols r c = Some (cellAt grid nCols r c).
Proof.
  intros (_ & _ & Hlen) Hin. unfold getValueAt, cellAt.
  rewrite outside_inGrid, Hin. simpl.
  apply inGrid_true in Hin as [Hr Hc].
  destruct (lookup_lt_is_Some_2 grid (Z.to_nat (r * nCols + c))) as [v Hv].
  - rewrite Hlen. by apply cell_index_lt.
  - by rewrite Hv.
Qed.

Lemma getValueAt_outside grid nRows nCols r c :
  inGrid nRows nCols r c = false →
  getValueAt grid nRows nCols r c = Some (-1).
Proof. intros Hout. unfold getValueAt. by rewrite outside_inGrid, Hout. Qed.

Lemma validGrid_sized grid nRows nCols :
  validGrid grid nRows nCols → sizedGrid grid nRows nCols.
Proof. intros (? & ? & ? & _). by repeat split. Qed.

Lemma validGrid_cellAt grid nRows nCols r c :
  validGrid grid nRows nCols →
  inGrid nRows nCols r c = true →
  0 ≤ cellAt grid nCols r c < MAX_FACTIONS.
Proof.
  intros (_ & _ & Hlen & Hall) Hin. unfold cellAt.
  apply inGrid_true in Hin as [Hr Hc].
  destruct (lookup_lt_is_Some_2 grid (Z.to_nat (r * nCols + c))) as [v Hv].
  - rewrite Hlen. by apply cell_index_lt.
  - rewrite Hv. simpl. by apply (Forall_lookup_1 _ _ _ _ Hall Hv).
Qed.

(** ** The tally of getNextState *)

Section Tally.
Context (world : list Z) (nRows nCols row col : Z).
Hypothesis Hvalid : validGrid world nRows nCols.

Let K : nat := Z.to_nat MAX_FACTIONS.

Lemma countAt_spec (counts : list Z) (d : Z * Z) :
  length counts = K →
  ∃ counts',
    countAt world nRows nCols row col d.1 d.2 counts = Some counts'
    ∧ length counts' = K
    ∧ ∀ f c, 0 ≤ f < MAX_FACTIONS →
        counts !! Z.to_nat f = Some c →
        counts' !! Z.to_nat f
        = Some (c + if holdsFaction world nRows nCols row col f d
                    then 1 else 0).
Proof.
  intros Hlen. unfold countAt, holdsFaction.
  destruct (inGrid nRows nCols (row + d.1) (col + d.2)) eqn:Hin.
  - rewrite (getValueAt_inGrid world) by eauto using validGrid_sized.
    pose proof (validGrid_cellAt _ _ _ _ _ Hvalid Hin) as Hv.
    set (v := cellAt world nCols (row + d.1) (col + d.2)) in *.
    unfold MAX_FACTIONS, DEAD_FACTION in *. simpl.
    destruct (Z.leb_spec 0 v); [|lia].
    unfold incrCount. destruct (Z.ltb_spec v 0); [lia|].
    destruct (lookup_lt_is_Some_2 counts (Z.to_nat v)) as [cv Hcv];
      [rewrite Hlen; unfold K, MAX_FACTIONS; lia|].
    rewrite Hcv. simpl. eexists. split; [done|].
    split; [by rewrite length_insert|].
    intros f c Hf Hc. destruct (Z.eqb_spec v f) as [->|Hne].
    + rewrite list_lookup_insert_eq by (by apply lookup_lt_Some in Hc).
      congruence.
    + rewrite list_lookup_insert_ne by lia. rewrite Hc. f_equal. lia.
  - rewrite getValueAt_outside by done. simpl.
    exists counts. split; [done|]. split; [done|].
    intros f c _ Hc. rewrite Hc. f_equal. lia.
Qed.

Lemma tallyOver_spec (ds : list (Z * Z)) (counts : list Z) :
  length counts = K →
  ∃ counts',
    tallyOver world nRows nCols row col ds counts = Some counts'
    ∧ length counts' = K
    ∧ ∀ f c, 0 ≤ f < MAX_FACTIONS →
        counts !! Z.to_nat f = Some c →
        counts' !! Z.to_nat f
        = Some (c + countWhere (holdsFaction world nRows nCols row col f) ds).
Proof.
  revert counts. induction ds as [|d ds IH]; intros counts Hlen.
  - exists counts. repeat split; [done|]. intros f c _ ->. simpl. f_equal. lia.
  - destruct (countAt_spec counts d Hlen) as (c1 & E1 & L1 & S1).
    destruct (IH c1 L1) as (c2 & E2 & L2 & S2).
    exists c2. simpl. rewrite E1. simpl. split; [done|]. split; [done|].
    intros f c Hf Hc. rewrite (S2 f _ Hf (S1 f c Hf Hc)). f_equal. lia.
Qed.

Lemma window_tally (counts : list Z) :
  forRange (-1) 2 (λ dy counts,
     forRange (-1) 2 (λ dx counts,
        countAt world nRows nCols row col dy dx counts) counts) counts
  = tallyOver world nRows nCols row col windowOffsets counts.
Proof.
  unfold forRange. simpl.
  repeat (destruct (countAt _ _ _ _ _ _ _ _); simpl; [|reflexivity]).
  reflexivity.
Qed.

Lemma window_count (f : Z) :
  countWhere (holdsFaction world nRows nCols row col f) windowOffsets
  = neighbourCount world nRows nCols row col f
    + if holdsFaction world nRows nCols row col f (0, 0) then 1 else 0.
Proof. unfold neighbourCount. simpl. lia. Qed.

(** The array that the rules read: entry [f] is the number of existing
    neighbours of the cell that hold faction [f]. *)
Lemma neighborCounts_spec :
  inGrid nRows nCols row col = true →
  ∃ counts,
    neighborCounts world nRows nCols row col (cellAt world nCols row col)
    = Some counts
    ∧ length counts = K
    ∧ ∀ f, 0 ≤ f < MAX_FACTIONS →
        counts !! Z.to_nat f
        = Some (neighbourCount world nRows nCols row col f).
Proof.
  intros Hin. unfold neighborCounts. rewrite window_tally.
  destruct (tallyOver_spec windowOffsets (replicate K 0))
    as (c9 & E & L & S9); [by rewrite length_replicate|].
  fold K. rewrite E. simpl.
  pose proof (validGrid_cellAt _ _ _ _ _ Hvalid Hin) as Hv.
  set (v := cellAt world nCols row col) in *.
  unfold decrCount. destruct (Z.ltb_spec v 0); [lia|].
  assert (Hz : ∀ f, 0 ≤ f < MAX_FACTIONS →
               replicate K 0 !! Z.to_nat f = Some 0).
  { intros f Hf. apply lookup_replicate_2. unfold K. lia. }
  assert (S9' : ∀ f, 0 ≤ f < MAX_FACTIONS →
            c9 !! Z.to_nat f
            = Some (neighbourCount world nRows nCols row col f
                    + if v =? f then 1 else 0)).
  { intros f Hf. rewrite (S9 f 0 Hf (Hz f Hf)), window_count. f_equal.
    unfold holdsFaction. cbn [fst snd]. rewrite !Z.add_0_r, Hin.
    fold v. cbn [andb]. lia. }
  rewrite (S9' v Hv), Z.eqb_refl.
  eexists. split; [reflexivity|]. split; [by rewrite length_insert|].
  intros f Hf. destruct (Z.eq_dec v f) as [->|Hne].
  - rewrite list_lookup_insert_eq by (rewrite L; unfold K, MAX_FACTIONS in *; lia).
    f_equal. lia.
  - rewrite list_lookup_insert_ne by lia. rewrite (S9' f Hf).
    destruct (Z.eqb_spec v f); [done|]. f_equal. lia.
Qed.
End Tally.

(** ** The two scans over the live factions *)

Section Scans.
Context (counts : list Z) (cnt : Z → Z).
Hypothesis Hcnt :
  ∀ f, 0 ≤ f < MAX_FACTIONS → counts !! Z.to_nat f = Some (cnt f).

Lemma hostile_loop (own : Z) (n : nat) (i acc : Z) :
  0 ≤ i → i + Z.of_nat n ≤ MAX_FACTIONS →
  forLoop n i (λ faction hostileCount,
     if faction =? own then Some hostileCount
     else c ← counts !! Z.to_nat faction; Some (hostileCount + c)) acc
  = Some (acc + sumOver (seqZ i (Z.of_nat n))
                  (λ f, if f =? own then 0 else cnt f)).
Proof.
  revert i acc. induction n as [|n IH]; intros i acc Hi Hn.
  - simpl. f_equal. lia.
  - rewrite seqZ_cons by lia. cbn [forLoop sumOver].
    replace (Z.pred (Z.of_nat (S n))) with (Z.of_nat n) by lia.
    destruct (Z.eqb_spec i own).
    + cbn [mbind option_bind]. rewrite IH by lia. unfold Z.succ. f_equal; lia.
    + rewrite Hcnt by lia. cbn [mbind option_bind]. rewrite IH by lia.
      unfold Z.succ. f_equal; lia.
Qed.

Lemma hostileScan_spec (own : Z) :
  hostileScan counts own
  = Some (sumOver liveFactions (λ f, if f =? own then 0 else cnt f)).
Proof.
  unfold hostileScan, forRange, liveFactions, DEAD_FACTION, MAX_FACTIONS.
  rewrite hostile_loop by (unfold MAX_FACTIONS; simpl; lia).
  reflexivity.
Qed.

Lemma birth_loop (n : nat) (i acc : Z) :
  0 ≤ i → i + Z.of_nat n ≤ MAX_FACTIONS →
  ∃ r,
    forLoop n i (λ faction newFaction,
       count ← counts !! Z.to_nat faction;
       Some (if isBirthable count then faction else newFaction)) acc
    = Some r
    ∧ ((r = acc ∧ ∀ f, i ≤ f < i + Z.of_nat n → cnt f ≠ 3)
       ∨ (i ≤ r < i + Z.of_nat n ∧ cnt r = 3
          ∧ ∀ f, r < f < i + Z.of_nat n → cnt f ≠ 3)).
Proof.
  revert i acc. induction n as [|n IH]; intros i acc Hi Hn.
  - exists acc. split; [done|]. left. split; [done|]. intros f Hf. lia.
  - cbn [forLoop]. rewrite Hcnt by lia. cbn [mbind option_bind].
    destruct (IH (i + 1) (if isBirthable (cnt i) then i else acc))
      as (r & E & Hr); [lia|lia|].
    exists r. split; [done|]. unfold isBirthable in Hr.
    destruct Hr as [[-> Hnone]|(Hin & H3 & Hlater)].
    + destruct (Z.eqb_spec (cnt i) 3) as [H3|H3].
      * right. split; [lia|]. split; [done|]. intros f Hf. apply Hnone. lia.
      * left. split; [done|]. intros f Hf.
        destruct (Z.eq_dec f i) as [->|]; [done|]. apply Hnone. lia.
    + right. split; [lia|]. split; [done|]. intros f Hf. apply Hlater. lia.
Qed.

Lemma birthScan_spec :
  ∃ r, birthScan counts = Some r
       ∧ ((r = DEAD_FACTION ∧ ∀ f, 1 ≤ f < MAX_FACTIONS → cnt f ≠ 3)
          ∨ (1 ≤ r < MAX_FACTIONS ∧ cnt r = 3
             ∧ ∀ f, r < f < MAX_FACTIONS → cnt f ≠ 3)).
Proof.
  unfold birthScan, forRange.
  destruct (birth_loop (Z.to_nat (MAX_FACTIONS - (DEAD_FACTION + 1)))
              (DEAD_FACTION + 1) DEAD_FACTION) as (r & E & Hr);
    [unfold DEAD_FACTION; lia|unfold DEAD_FACTION, MAX_FACTIONS; simpl; lia|].
  exists r. split; [done|].
  unfold DEAD_FACTION, MAX_FACTIONS in *. simpl in Hr. exact Hr.
Qed.
End Scans.

(** ** getNextState, rule by rule *)

Lemma landedOn_none invaders nRows nCols row col :
  noOverlayAt invaders nRows nCols row col →
  landedOn invaders nRows nCols row col = Some None.
Proof.
  destruct invaders as [inv|]; simpl; [|done]. intros ->. reflexivity.
Qed.

(** Without an overlay on the cell, the result is decided by the counted
    neighbours alone. *)
Lemma getNextState_by_counts world invaders nRows nCols row col :
  validGrid world nRows nCols →
  inGrid nRows nCols row col = true →
  noOverlayAt invaders nRows nCols row col →
  ∃ counts,
    (∀ f, 0 ≤ f < MAX_FACTIONS →
       counts !! Z.to_nat f = Some (neighbourCount world nRows nCols row col f))
    ∧ getNextState world invaders nRows nCols row col
      = let cellFaction := cellAt world nCols row col in
        if cellFaction =? DEAD_FACTION then
          newFaction ← birthScan counts; Some (newFaction, false)
        else
          hostileCount ← hostileScan counts cellFaction;
          if willFight hostileCount then Some (DEAD_FACTION, true)
          else
            friendlyCount ← counts !! Z.to_nat cellFaction;
            if negb (isSurvivable friendlyCount) then Some (DEAD_FACTION, false)
            else Some (cellFaction, false).
Proof.
  intros Hvalid Hin Hno.
  destruct (neighborCounts_spec world nRows nCols row col Hvalid Hin)
    as (counts & E & _ & Hc).
  exists counts. split; [done|]. unfold getNextState.
  rewrite (getValueAt_inGrid world) by eauto using validGrid_sized.
  cbn [mbind option_bind]. rewrite landedOn_none by done.
  cbn [mbind option_bind]. rewrite E. reflexivity.
Qed.

Lemma cell_row_col nRows nCols row col :
  inGrid nRows nCols row col = true →
  getRow nRows nCols (cellIndex nCols row col) = Some row
  ∧ getCol nRows nCols (cellIndex nCols row col) = Some col.
Proof.
  intros [Hr Hc]%inGrid_true. unfold getRow, getCol, cellIndex.
  destruct (Z.eqb_spec nCols 0); [lia|].
  rewrite Z.quot_div_nonneg, Z.rem_mod_nonneg by nia.
  split; f_equal.
  - symmetry. apply (Z.div_unique_pos _ _ row col); lia.
  - symmetry. apply (Z.mod_unique_pos _ _ row col); lia.
Qed.

(** What the worker does with the result of the rule engine. *)
Lemma workerCell_at world invaders nRows nCols row col next toll v died :
  sizedGrid next nRows nCols →
  inGrid nRows nCols row col = true →
  getNextState world invaders nRows nCols row col = Some (v, died) →
  workerCell world invaders nRows nCols (cellIndex nCols row col) (next, toll)
  = let next' := <[Z.to_nat (cellIndex nCols row col) := v]> next in
    if died then toll' ← incrToll toll; Some (next', toll')
    else Some (next', toll).
Proof.
  intros (_ & _ & Hlen) Hin E. unfold workerCell.
  destruct (cell_row_col nRows nCols row col Hin) as [-> ->].
  cbn [mbind option_bind]. rewrite E. cbn [mbind option_bind].
  unfold setValueAt. rewrite outside_inGrid, Hin. cbn [negb].
  apply inGrid_true in Hin as [Hr Hc].
  pose proof (cell_index_lt nRows nCols row col Hr Hc).
  unfold cellIndex. destruct (decide _); [|lia]. reflexivity.
Qed.

Lemma incrToll_ok toll : toll < INT_MAX → incrToll toll = Some (toll + 1).
Proof. intros H. unfold incrToll. by destruct (Z.ltb_spec toll INT_MAX); [|lia]. Qed.

(** Discharges the side conditions of a concrete instance. *)
Ltac concrete :=
  repeat match goal with
         | |- validOverlay _ _ _ => unfold validOverlay; cbn iota
         | |- validGrid _ _ _ => unfold validGrid
         | |- sizedGrid _ _ _ => unfold sizedGrid
         | |- noOverlayAt _ _ _ _ _ => unfold noOverlayAt
         | |- _ ∧ _ => split
         | |- Forall _ _ => constructor
         end;
  try (vm_compute; congruence); try reflexivity; try (unfold MAX_FACTIONS; lia).

(** C1. A live cell of the grid on which no overlay applies, and whose
    neighbours of the other live factions number more than zero in total,
    gets faction 0 with [diedDueToFighting] set, whatever the number of
    neighbours of its own faction; the worker that computes the cell writes
    0 into the next buffer and adds exactly one to the shared death toll. *)
Theorem hostile_neighbour_kills world invaders nRows nCols row col next toll :
  validGrid world nRows nCols →
  sizedGrid next nRows nCols →
  inGrid nRows nCols row col = true →
  cellAt world nCols row col ≠ DEAD_FACTION →
  noOverlayAt invaders nRows nCols row col →
  0 < hostileNeighbours world nRows nCols row col (cellAt world nCols row col) →
  toll < INT_MAX →
  getNextState world invaders nRows nCols row col = Some (DEAD_FACTION, true)
  ∧ workerCell world invaders nRows nCols (cellIndex nCols row col) (next, toll)
    = Some (<[Z.to_nat (cellIndex nCols row col) := DEAD_FACTION]> next,
            toll + 1).
Proof.
  intros Hvalid Hnext Hin Hlive Hno Hhostile Htoll.
  destruct (getNextState_by_counts world invaders nRows nCols row col)
    as (counts & Hc & E); [done..|].
  assert (Hres : getNextState world invaders nRows nCols row col
                 = Some (DEAD_FACTION, true)).
  { rewrite E. cbn zeta. destruct (Z.eqb_spec (cellAt world nCols row col)
                                      DEAD_FACTION); [done|].
    rewrite (hostileScan_spec counts _ Hc). cbn [mbind option_bind].
    unfold willFight. fold (hostileNeighbours world nRows nCols row col
                              (cellAt world nCols row col)).
    by destruct (Z.ltb_spec 0 (hostileNeighbours world nRows nCols row col
                                 (cellAt world nCols row col))); [|lia]. }
  split; [done|].
  rewrite (workerCell_at _ _ _ _ _ _ _ _ _ _ Hnext Hin Hres). cbn zeta.
  by rewrite incrToll_ok.
Qed.

Lemma hostile_neighbour_kills_witness :
  getNextState [1; 2; 1; 1] None 2 2 0 0 = Some (DEAD_FACTION, true)
  ∧ workerCell [1; 2; 1; 1] None 2 2 (cellIndex 2 0 0) ([7; 7; 7; 7], 5)
    = Some (<[Z.to_nat (cellIndex 2 0 0) := DEAD_FACTION]> [7; 7; 7; 7], 5 + 1).
Proof.
  apply (hostile_neighbour_kills [1; 2; 1; 1] None 2 2 0 0 [7; 7; 7; 7] 5);
    concrete.
Defined.

(** C2. A live cell of the grid on which no overlay applies and which has no
    neighbour of another live faction keeps its faction exactly when it has
    two or three neighbours of its own faction; otherwise it gets faction 0.
    In both cases [diedDueToFighting] is false and the worker leaves the
    death toll as it was. *)
Theorem peaceful_cell_survives_on_two_or_three
    world invaders nRows nCols row col next toll :
  validGrid world nRows nCols →
  sizedGrid next nRows nCols →
  inGrid nRows nCols row col = true →
  cellAt world nCols row col ≠ DEAD_FACTION →
  noOverlayAt invaders nRows nCols row col →
  hostileNeighbours world nRows nCols row col (cellAt world nCols row col) = 0 →
  let own := cellAt world nCols row col in
  let friendlyCount := neighbourCount world nRows nCols row col own in
  ∃ r,
    getNextState world invaders nRows nCols row col = Some (r, false)
    ∧ (r = own ↔ friendlyCount = 2 ∨ friendlyCount = 3)
    ∧ (¬ (friendlyCount = 2 ∨ friendlyCount = 3) → r = DEAD_FACTION)
    ∧ workerCell world invaders nRows nCols (cellIndex nCols row col)
        (next, toll)
      = Some (<[Z.to_nat (cellIndex nCols row col) := r]> next, toll).
Proof.
  intros Hvalid Hnext Hin Hlive Hno Hhostile own friendlyCount.
  destruct (getNextState_by_counts world invaders nRows nCols row col)
    as (counts & Hc & E); [done..|].
  pose proof (validGrid_cellAt _ _ _ _ _ Hvalid Hin) as Hown. fold own in Hown.
  cbn zeta in E. fold own in E, Hlive, Hhostile.
  destruct (Z.eqb_spec own DEAD_FACTION); [done|].
  rewrite (hostileScan_spec counts _ Hc) in E. cbn [mbind option_bind] in E.
  fold (hostileNeighbours world nRows nCols row col own) in E.
  rewrite Hhostile in E. cbn [willFight Z.ltb Z.compare] in E.
  rewrite (Hc own Hown) in E. cbn [mbind option_bind] in E.
  fold friendlyCount in E. unfold isSurvivable in E.
  destruct (Z.eqb_spec friendlyCount 2) as [H2|H2];
    [|destruct (Z.eqb_spec friendlyCount 3) as [H3|H3]]; cbn in E.
  - exists own. split; [done|]. split; [tauto|]. split; [tauto|].
    by rewrite (workerCell_at _ _ _ _ _ _ _ _ _ _ Hnext Hin E).
  - exists own. split; [done|]. split; [tauto|]. split; [tauto|].
    by rewrite (workerCell_at _ _ _ _ _ _ _ _ _ _ Hnext Hin E).
  - exists DEAD_FACTION. split; [done|]. split; [|split; [done|]].
    + split; [intros Heq; congruence|tauto].
    + by rewrite (workerCell_at _ _ _ _ _ _ _ _ _ _ Hnext Hin E).
Qed.

Lemma peaceful_cell_survives_on_two_or_three_witness :
  ∃ r,
    getNextState [0; 0; 0; 1; 1; 1; 0; 0; 0] None 3 3 1 1 = Some (r, false)
    ∧ (r = 1 ↔ 2 = 2 ∨ 2 = 3)
    ∧ (¬ (2 = 2 ∨ 2 = 3) → r = DEAD_FACTION)
    ∧ workerCell [0; 0; 0; 1; 1; 1; 0; 0; 0] None 3 3 (cellIndex 3 1 1)
        (replicate 9 7, 4)
      = Some (<[Z.to_nat (cellIndex 3 1 1) := r]> (replicate 9 7), 4).
Proof.
  apply (peaceful_cell_survives_on_two_or_three
           [0; 0; 0; 1; 1; 1; 0; 0; 0] None 3 3 1 1 (replicate 9 7) 4);
    concrete.
Defined.

(** C3. A dead cell of the grid on which no overlay applies gets the highest
    live faction id that has exactly three neighbours, or stays at 0 when no
    live faction has exactly three; [diedDueToFighting] is false in every
    case. *)
Theorem dead_cell_birth world invaders nRows nCols row col :
  validGrid world nRows nCols →
  inGrid nRows nCols row col = true →
  cellAt world nCols row col = DEAD_FACTION →
  noOverlayAt invaders nRows nCols row col →
  ∃ r,
    getNextState world invaders nRows nCols row col = Some (r, false)
    ∧ birthWinner world nRows nCols row col r.
Proof.
  intros Hvalid Hin Hdead Hno.
  destruct (getNextState_by_counts world invaders nRows nCols row col)
    as (counts & Hc & E); [done..|].
  cbn zeta in E. rewrite Hdead, Z.eqb_refl in E.
  destruct (birthScan_spec counts _ Hc) as (r & Er & Hr).
  exists r. rewrite E, Er. split; [done|]. exact Hr.
Qed.

Lemma dead_cell_birth_witness :
  ∃ r,
    getNextState [1; 2; 1; 2; 0; 2; 1; 0; 0] (Some (replicate 9 0)) 3 3 1 1
    = Some (r, false)
    ∧ birthWinner [1; 2; 1; 2; 0; 2; 1; 0; 0] 3 3 1 1 r.
Proof.
  apply (dead_cell_birth [1; 2; 1; 2; 0; 2; 1; 0; 0] (Some (replicate 9 0))
           3 3 1 1); concrete.
Defined.

(** The tie-break on that grid: factions 1 and 2 both have three
    neighbours of the dead centre, and 2 wins. *)
Example birth_tie_break :
  getNextState [1; 2; 1; 2; 0; 2; 1; 0; 0] None 3 3 1 1 = Some (2, false).
Proof. reflexivity. Qed.

(** An overlay value that is not zero decides the cell by itself. *)
Lemma getNextState_landed world inv nRows nCols row col :
  sizedGrid world nRows nCols →
  sizedGrid inv nRows nCols →
  inGrid nRows nCols row col = true →
  cellAt inv nCols row col ≠ DEAD_FACTION →
  getNextState world (Some inv) nRows nCols row col
  = Some (cellAt inv nCols row col,
          negb (cellAt world nCols row col =? DEAD_FACTION)).
Proof.
  intros Hw Hi Hin Hv. unfold getNextState, landedOn.
  rewrite (getValueAt_inGrid world), (getValueAt_inGrid inv) by done.
  cbn [mbind option_bind].
  by destruct (Z.eqb_spec (cellAt inv nCols row col) DEAD_FACTION).
Qed.

(** C4. Where the overlay is present and not zero at a cell of the grid,
    [getNextState] returns the overlay value without looking at any
    neighbour, and [diedDueToFighting] is set exactly when the cell is
    currently occupied: the worker leaves the death toll alone for a landing
    on a dead cell and adds exactly one for a landing on a live cell. *)
Theorem invasion_overwrites world inv nRows nCols row col next toll :
  sizedGrid world nRows nCols →
  sizedGrid inv nRows nCols →
  sizedGrid next nRows nCols →
  inGrid nRows nCols row col = true →
  cellAt inv nCols row col ≠ DEAD_FACTION →
  let next' :=
    <[Z.to_nat (cellIndex nCols row col) := cellAt inv nCols row col]> next in
  ∃ died,
    getNextState world (Some inv) nRows nCols row col
    = Some (cellAt inv nCols row col, died)
    ∧ (died = true ↔ cellAt world nCols row col ≠ DEAD_FACTION)
    ∧ (cellAt world nCols row col = DEAD_FACTION →
       workerCell world (Some inv) nRows nCols (cellIndex nCols row col)
         (next, toll) = Some (next', toll))
    ∧ (cellAt world nCols row col ≠ DEAD_FACTION → toll < INT_MAX →
       workerCell world (Some inv) nRows nCols (cellIndex nCols row col)
         (next, toll) = Some (next', toll + 1)).
Proof.
  intros Hw Hi Hnext Hin Hv next'.
  pose proof (getNextState_landed world inv nRows nCols row col Hw Hi Hin Hv)
    as E.
  pose proof (workerCell_at _ _ _ _ _ _ next toll _ _ Hnext Hin E) as Ew.
  cbn zeta in Ew. fold next' in Ew.
  exists (negb (cellAt world nCols row col =? DEAD_FACTION)).
  destruct (Z.eqb_spec (cellAt world nCols row col) DEAD_FACTION) as [Hd|Hd];
    cbn [negb] in *.
  - repeat split; try done; try (intros Hl; by destruct Hl).
  - repeat split; try done; try (intros _ Htoll; by rewrite Ew, incrToll_ok).
Qed.

Lemma invasion_overwrites_witness :
  ∃ died,
    getNextState [1; 0; 0; 0] (Some [0; 3; 0; 0]) 2 2 0 1
    = Some (cellAt [0; 3; 0; 0] 2 0 1, died)
    ∧ (died = true ↔ cellAt [1; 0; 0; 0] 2 0 1 ≠ DEAD_FACTION)
    ∧ (cellAt [1; 0; 0; 0] 2 0 1 = DEAD_FACTION →
       workerCell [1; 0; 0; 0] (Some [0; 3; 0; 0]) 2 2 (cellIndex 2 0 1)
         ([7; 7; 7; 7], 0)
       = Some (<[Z.to_nat (cellIndex 2 0 1) := cellAt [0; 3; 0; 0] 2 0 1]>
                 [7; 7; 7; 7], 0))
    ∧ (cellAt [1; 0; 0; 0] 2 0 1 ≠ DEAD_FACTION → 0 < INT_MAX →
       workerCell [1; 0; 0; 0] (Some [0; 3; 0; 0]) 2 2 (cellIndex 2 0 1)
         ([7; 7; 7; 7], 0)
       = Some (<[Z.to_nat (cellIndex 2 0 1) := cellAt [0; 3; 0; 0] 2 0 1]>
                 [7; 7; 7; 7], 0 + 1)).
Proof.
  apply (invasion_overwrites [1; 0; 0; 0] [0; 3; 0; 0] 2 2 0 1 [7; 7; 7; 7] 0);
    concrete.
Defined.

(** C10. Where the overlay holds, at a live cell of the grid, the faction
    that already occupies the cell, [getNextState] returns that same faction
    with [diedDueToFighting] set, and the worker adds one to the death toll
    although the cell keeps its owner. *)
Theorem self_invasion_counts_as_death world inv nRows nCols row col next toll :
  sizedGrid world nRows nCols →
  sizedGrid inv nRows nCols →
  sizedGrid next nRows nCols →
  inGrid nRows nCols row col = true →
  cellAt world nCols row col ≠ DEAD_FACTION →
  cellAt inv nCols row col = cellAt world nCols row col →
  toll < INT_MAX →
  getNextState world (Some inv) nRows nCols row col
  = Some (cellAt world nCols row col, true)
  ∧ workerCell world (Some inv) nRows nCols (cellIndex nCols row col)
      (next, toll)
    = Some (<[Z.to_nat (cellIndex nCols row col) := cellAt world nCols row col]>
              next, toll + 1).
Proof.
  intros Hw Hi Hnext Hin Hlive Hsame Htoll.
  assert (E : getNextState world (Some inv) nRows nCols row col
              = Some (cellAt world nCols row col, true)).
  { rewrite getNextState_landed by (done || congruence). rewrite Hsame.
    by destruct (Z.eqb_spec (cellAt world nCols row col) DEAD_FACTION). }
  split; [done|].
  rewrite (workerCell_at _ _ _ _ _ _ _ _ _ _ Hnext Hin E). cbn zeta.
  by rewrite incrToll_ok.
Qed.

Lemma self_invasion_counts_as_death_witness :
  getNextState [0; 4; 0; 0] (Some [0; 4; 0; 0]) 2 2 0 1
  = Some (cellAt [0; 4; 0; 0] 2 0 1, true)
  ∧ workerCell [0; 4; 0; 0] (Some [0; 4; 0; 0]) 2 2 (cellIndex 2 0 1)
      ([7; 7; 7; 7], 9)
    = Some (<[Z.to_nat (cellIndex 2 0 1) := cellAt [0; 4; 0; 0] 2 0 1]>
              [7; 7; 7; 7], 9 + 1).
Proof.
  apply (self_invasion_counts_as_death [0; 4; 0; 0] [0; 4; 0; 0] 2 2 0 1
           [7; 7; 7; 7] 9); concrete.
Defined.

(** C9. On a world of faction ids in [0, K), with an overlay that is absent
    or of the same kind, [getNextState] returns a result for every cell of
    the grid: no read of a grid and no access to [neighborCounts] (the tally,
    the adjustment for the cell itself, the scans) leaves its array.  The
    faction it returns is again in [0, K). *)
Theorem getNextState_total world invaders nRows nCols row col :
  validGrid world nRows nCols →
  validOverlay invaders nRows nCols →
  inGrid nRows nCols row col = true →
  ∃ faction died,
    getNextState world invaders nRows nCols row col = Some (faction, died)
    ∧ 0 ≤ faction < MAX_FACTIONS.
Proof.
  intros Hvalid Hov Hin.
  pose proof (validGrid_cellAt _ _ _ _ _ Hvalid Hin) as Hown.
  assert (Hcases : noOverlayAt invaders nRows nCols row col
                   ∨ ∃ inv, invaders = Some inv ∧ validGrid inv nRows nCols
                            ∧ cellAt inv nCols row col ≠ DEAD_FACTION).
  { destruct invaders as [inv|]; [|by left]. simpl in Hov.
    destruct (Z.eq_dec (cellAt inv nCols row col) DEAD_FACTION) as [Hz|Hnz].
    - left. simpl. rewrite (getValueAt_inGrid inv) by eauto using validGrid_sized.
      by rewrite Hz.
    - right. eauto. }
  destruct Hcases as [Hno|(inv & -> & Hinv & Hnz)].
  - destruct (getNextState_by_counts world invaders nRows nCols row col)
      as (counts & Hc & E); [done..|].
    rewrite E. cbn zeta.
    destruct (Z.eqb_spec (cellAt world nCols row col) DEAD_FACTION).
    + destruct (birthScan_spec counts _ Hc) as (r & -> & Hr).
      exists r, false. split; [done|].
      unfold DEAD_FACTION, MAX_FACTIONS in *. destruct Hr as [[-> _]|[? _]]; lia.
    + rewrite (hostileScan_spec counts _ Hc). cbn [mbind option_bind].
      destruct (willFight _).
      * exists DEAD_FACTION, true. split; [done|]. unfold DEAD_FACTION, MAX_FACTIONS. lia.
      * rewrite (Hc _ Hown). cbn [mbind option_bind].
        destruct (negb _).
        -- exists DEAD_FACTION, false. split; [done|]. unfold DEAD_FACTION, MAX_FACTIONS. lia.
        -- eexists _, false. split; [done|]. done.
  - rewrite getNextState_landed by eauto using validGrid_sized.
    eexists _, _. split; [done|]. by apply (validGrid_cellAt inv nRows).
Qed.

Lemma getNextState_total_witness :
  ∃ faction died,
    getNextState [1; 2; 1; 2; 0; 2; 1; 0; 9] (Some [0; 0; 0; 0; 0; 0; 0; 0; 5])
      3 3 2 2 = Some (faction, died)
    ∧ 0 ≤ faction < MAX_FACTIONS.
Proof.
  apply (getNextState_total [1; 2; 1; 2; 0; 2; 1; 0; 9]
           (Some [0; 0; 0; 0; 0; 0; 0; 0; 5]) 3 3 2 2); concrete.
Defined.

(** ** The boundary of the grid *)

Lemma sumOver_add (fs : list Z) (g h : Z → Z) :
  sumOver fs (λ f, g f + h f) = sumOver fs g + sumOver fs h.
Proof. induction fs as [|f fs IH]; simpl; lia. Qed.

Lemma sumOver_indicator (v : Z) :
  0 ≤ v < MAX_FACTIONS →
  sumOver (seqZ 0 MAX_FACTIONS) (λ f, if v =? f then 1 else 0) = 1.
Proof.
  unfold MAX_FACTIONS. intros Hv.
  assert (Hcases : v = 0 ∨ v = 1 ∨ v = 2 ∨ v = 3 ∨ v = 4 ∨ v = 5 ∨ v = 6
                   ∨ v = 7 ∨ v = 8 ∨ v = 9) by lia.
  repeat destruct Hcases as [->|Hcases]; try subst v; reflexivity.
Qed.

Lemma sumOver_zero (fs : list Z) : sumOver fs (λ _, 0) = 0.
Proof. induction fs as [|f fs IH]; simpl; lia. Qed.

(** Every existing neighbour is counted for exactly one faction, and nothing
    else is counted. *)
Lemma counts_add_up world nRows nCols row col (ds : list (Z * Z)) :
  validGrid world nRows nCols →
  sumOver (seqZ 0 MAX_FACTIONS)
    (λ f, countWhere (holdsFaction world nRows nCols row col f) ds)
  = countWhere (λ d : Z * Z, inGrid nRows nCols (row + d.1) (col + d.2)) ds.
Proof.
  intros Hvalid. induction ds as [|d ds IH].
  - cbn [countWhere]. apply sumOver_zero.
  - cbn [countWhere]. rewrite sumOver_add, IH. f_equal.
    unfold holdsFaction.
    destruct (inGrid nRows nCols (row + d.1) (col + d.2)) eqn:Hin; cbn [andb].
    + apply sumOver_indicator. by apply (validGrid_cellAt world nRows).
    + apply sumOver_zero.
Qed.

(** C5. For a cell of the grid, entry [f] of the array that the rules read
    is the number of positions among the eight around the cell that lie
    inside [0, nRows) x [0, nCols) and hold faction [f]: a position outside
    the grid is counted for no faction (not for faction 0 either, and not
    for a cell on the opposite edge), and the cell itself is not counted.
    Over all factions the entries add up to the number of neighbour
    positions that exist. *)
Theorem tally_counts_existing_neighbours_only world nRows nCols row col :
  validGrid world nRows nCols →
  inGrid nRows nCols row col = true →
  ∃ counts,
    neighborCounts world nRows nCols row col (cellAt world nCols row col)
    = Some counts
    ∧ (∀ f, 0 ≤ f < MAX_FACTIONS →
         counts !! Z.to_nat f
         = Some (neighbourCount world nRows nCols row col f))
    ∧ sumOver (seqZ 0 MAX_FACTIONS) (neighbourCount world nRows nCols row col)
      = neighboursInGrid nRows nCols row col.
Proof.
  intros Hvalid Hin.
  destruct (neighborCounts_spec world nRows nCols row col Hvalid Hin)
    as (counts & E & _ & Hc).
  exists counts. split; [done|]. split; [done|].
  unfold neighbourCount, neighboursInGrid. by apply counts_add_up.
Qed.

Lemma tally_counts_existing_neighbours_only_witness :
  ∃ counts,
    neighborCounts [1; 1; 1; 1] 2 2 0 0 (cellAt [1; 1; 1; 1] 2 0 0)
    = Some counts
    ∧ (∀ f, 0 ≤ f < MAX_FACTIONS →
         counts !! Z.to_nat f = Some (neighbourCount [1; 1; 1; 1] 2 2 0 0 f))
    ∧ sumOver (seqZ 0 MAX_FACTIONS) (neighbourCount [1; 1; 1; 1] 2 2 0 0)
      = neighboursInGrid 2 2 0 0.
Proof.
  apply (tally_counts_existing_neighbours_only [1; 1; 1; 1] 2 2 0 0); concrete.
Defined.

(** The corner of a full 2 x 2 grid has three neighbours, all of faction 1:
    the five positions off the grid count for nobody. *)
Example corner_tally :
  neighborCounts [1; 1; 1; 1] 2 2 0 0 1 = Some [0; 3; 0; 0; 0; 0; 0; 0; 0; 0].
Proof. reflexivity. Qed.

(** Outside the invariant of the data model the array is overrun: a
    neighbour of faction 10 indexes [neighborCounts] past its end. *)
Example faction_out_of_range : getNextState [0; 10] None 1 2 0 0 = None.
Proof. reflexivity. Qed.

(** ** The partitions *)

Lemma firstWorkers_spec (n : nat) (index threadSize totalGrids : Z) :
  0 ≤ threadSize →
  index + Z.of_nat n * threadSize ≤ totalGrids →
  firstWorkers n index threadSize totalGrids
  = ((λ t : nat, Partition (index + Z.of_nat t * threadSize)
                           (index + (Z.of_nat t + 1) * threadSize)) <$> seq 0 n,
     index + Z.of_nat n * threadSize).
Proof.
  revert index. induction n as [|n IH]; intros index Hsize Hfit.
  - simpl. f_equal. lia.
  - cbn [firstWorkers]. rewrite IH by lia.
    rewrite Z.min_l by lia. cbn [seq fmap list_fmap]. f_equal.
    + f_equal; [f_equal; lia|].
      rewrite <- seq_shift, <- list_fmap_compose.
      apply list_fmap_ext. intros _ t _. simpl. f_equal; lia.
    + lia.
Qed.

Lemma makePartitions_spec (nThreads totalGrids : Z) :
  1 ≤ nThreads → 0 ≤ totalGrids →
  let threadSize := totalGrids ÷ nThreads in
  makePartitions nThreads totalGrids
  = ((λ t : nat, Partition (Z.of_nat t * threadSize)
                           ((Z.of_nat t + 1) * threadSize))
       <$> seq 0 (Z.to_nat (nThreads - 1)))
    ++ [Partition ((nThreads - 1) * threadSize) totalGrids].
Proof.
  intros Hn Htot threadSize. unfold makePartitions. fold threadSize.
  assert (Hq : threadSize = totalGrids / nThreads)
    by (unfold threadSize; apply Z.quot_div_nonneg; lia).
  assert (0 ≤ threadSize) by (rewrite Hq; apply Z.div_pos; lia).
  assert (nThreads * threadSize ≤ totalGrids)
    by (rewrite Hq; apply Z.mul_div_le; lia).
  rewrite firstWorkers_spec by (rewrite ?Z2Nat.id by lia; nia). cbn beta iota.
  rewrite Z2Nat.id, Z.add_0_l by lia.
  reflexivity.
Qed.

Lemma makePartitions_lookup (nThreads totalGrids : Z) (t : nat) (p : partition) :
  1 ≤ nThreads → 0 ≤ totalGrids →
  let threadSize := totalGrids ÷ nThreads in
  makePartitions nThreads totalGrids !! t = Some p ↔
    (Z.of_nat t < nThreads - 1
     ∧ p = Partition (Z.of_nat t * threadSize) ((Z.of_nat t + 1) * threadSize))
    ∨ (Z.of_nat t = nThreads - 1
       ∧ p = Partition ((nThreads - 1) * threadSize) totalGrids).
Proof.
  intros Hn Htot threadSize. rewrite makePartitions_spec by done.
  fold threadSize. set (n := Z.to_nat (nThreads - 1)).
  destruct (decide (t < n)%nat) as [Hlt|Hge].
  - rewrite lookup_app_l by (by rewrite length_fmap, length_seq).
    rewrite list_lookup_fmap, lookup_seq_lt by done. simpl. split.
    + intros [= <-]. left. split; [lia|done].
    + intros [[_ ->]|[Heq _]]; [done|lia].
  - rewrite lookup_app_r by (rewrite length_fmap, length_seq; lia).
    rewrite length_fmap, length_seq.
    destruct (t - n)%nat as [|k] eqn:Hk; simpl; split.
    + intros [= <-]. right. split; [lia|done].
    + intros [[Hlt _]|[_ ->]]; [lia|done].
    + done.
    + intros [[Hlt _]|[Heq _]]; lia.
Qed.

Lemma makePartitions_length (nThreads totalGrids : Z) :
  1 ≤ nThreads → 0 ≤ totalGrids →
  length (makePartitions nThreads totalGrids) = Z.to_nat nThreads.
Proof.
  intros Hn Htot. rewrite makePartitions_spec by done.
  rewrite length_app, length_fmap, length_seq. simpl. lia.
Qed.

(** The arithmetic of the split: quotient and remainder. *)
Lemma threadSize_bounds (nThreads totalGrids : Z) :
  1 ≤ nThreads → 0 ≤ totalGrids →
  0 ≤ totalGrids ÷ nThreads
  ∧ totalGrids = nThreads * (totalGrids ÷ nThreads) + Z.rem totalGrids nThreads
  ∧ 0 ≤ Z.rem totalGrids nThreads < nThreads.
Proof.
  intros Hn Htot. split; [apply Z.quot_pos; lia|]. split.
  - apply Z.quot_rem'.
  - apply Z.rem_bound_pos; lia.
Qed.

Section Partitions.
Context (nThreads totalGrids : Z).
Hypothesis Hthreads : 1 ≤ nThreads.
Hypothesis Htotal : 0 ≤ totalGrids.

Let threadSize := totalGrids ÷ nThreads.
Let ps := makePartitions nThreads totalGrids.

Lemma partition_cases (t : nat) (p : partition) :
  ps !! t = Some p →
  (Z.of_nat t < nThreads - 1
   ∧ startIdx p = Z.of_nat t * threadSize
   ∧ endIdx p = (Z.of_nat t + 1) * threadSize)
  ∨ (Z.of_nat t = nThreads - 1
     ∧ startIdx p = (nThreads - 1) * threadSize
     ∧ endIdx p = totalGrids).
Proof.
  intros Hp. apply makePartitions_lookup in Hp; [|done..].
  destruct Hp as [[? ->]|[? ->]]; [left|right]; done.
Qed.

Lemma partitions_contiguous : contiguous ps totalGrids.
Proof.
  destruct (threadSize_bounds nThreads totalGrids) as (Hq & Hsplit & Hrem);
    [done..|]. fold threadSize in Hq, Hsplit.
  repeat split.
  - intros p Hp. rewrite head_lookup in Hp.
    destruct (partition_cases _ _ Hp) as [(_ & -> & _)|(Hl & -> & _)]; [lia|].
    replace nThreads with 1 by lia. lia.
  - intros p Hp. rewrite last_lookup in Hp.
    unfold ps in Hp. rewrite makePartitions_length in Hp by done.
    destruct (partition_cases _ _ Hp) as [(Hlt & _)|(_ & _ & ->)]; [lia|done].
  - intros t p q Hp Hq'.
    destruct (partition_cases _ _ Hp) as [(Hlt & _ & ->)|(Hl & _)];
      destruct (partition_cases _ _ Hq') as [(Hlt' & -> & _)|(Hl' & -> & _)];
      lia.
  - intros p [t Hp]%list_elem_of_lookup.
    destruct (partition_cases _ _ Hp) as [(Hlt & -> & ->)|(Hl & -> & ->)]; nia.
Qed.

Lemma partitions_disjoint : pairwiseDisjoint ps.
Proof.
  destruct (threadSize_bounds nThreads totalGrids) as (Hq & Hsplit & Hrem);
    [done..|]. fold threadSize in Hq, Hsplit.
  intros t u p q i Hp Hq' Hne [[Hp1 Hp2] [Hq1 Hq2]].
  destruct (partition_cases _ _ Hp) as [(Ht & Hs & He)|(Ht & Hs & He)];
    destruct (partition_cases _ _ Hq') as [(Hu & Hs' & He')|(Hu & Hs' & He')];
    rewrite Hs, He, Hs', He' in *; nia.
Qed.

Lemma partitions_cover : coversExactlyOnce ps totalGrids.
Proof.
  destruct (threadSize_bounds nThreads totalGrids) as (Hq & Hsplit & Hrem);
    [done..|]. fold threadSize in Hq, Hsplit.
  split.
  - intros t p i Hp [Hi1 Hi2].
    destruct (partition_cases _ _ Hp) as [(Ht & Hs & He)|(Ht & Hs & He)];
      rewrite Hs, He in *; nia.
  - intros i Hi.
    assert (Hex : ∃ t p, ps !! t = Some p ∧ inPartition i p).
    { destruct (Z_lt_le_dec i ((nThreads - 1) * threadSize)) as [Hlow|Hhigh].
      - assert (0 < threadSize) by nia.
        pose proof (Z.div_mod i threadSize ltac:(lia)) as Hdm.
        pose proof (Z.mod_pos_bound i threadSize ltac:(lia)) as Hmb.
        assert (0 ≤ i / threadSize) by (apply Z.div_pos; lia).
        exists (Z.to_nat (i / threadSize)), (Partition
           (Z.of_nat (Z.to_nat (i / threadSize)) * threadSize)
           ((Z.of_nat (Z.to_nat (i / threadSize)) + 1) * threadSize)).
        split.
        + apply makePartitions_lookup; [done..|]. left.
          split; [|done]. rewrite Z2Nat.id by done. nia.
        + unfold inPartition. simpl. rewrite Z2Nat.id by done. nia.
      - exists (Z.to_nat (nThreads - 1)),
          (Partition ((nThreads - 1) * threadSize) totalGrids).
        split.
        + apply makePartitions_lookup; [done..|]. right. split; [lia|done].
        + unfold inPartition. simpl. lia. }
    destruct Hex as (t & p & Hp & Hin). exists t, p.
    split; [done|]. split; [done|]. intros u q Hq' Hin'.
    destruct (decide (u = t)) as [|Hne]; [done|].
    by destruct (partitions_disjoint u t q p i).
Qed.
End Partitions.

(** C6, as the code has it. For at least one thread and a grid of
    [nRows * nCols] cells, goi builds one partition per thread; the
    partitions follow one another from 0 to the number of cells, no two share
    an index, and every cell index lies in exactly one of them.  Each of the
    first [nThreads - 1] partitions has [(nRows * nCols) / nThreads] cells
    and the last one has that many plus the whole remainder of the division,
    which is less than [nThreads]. *)
Theorem partitions_split_the_grid (nThreads nRows nCols : Z) :
  1 ≤ nThreads → 0 ≤ nRows → 0 ≤ nCols →
  let totalGrids := nRows * nCols in
  let ps := makePartitions nThreads totalGrids in
  length ps = Z.to_nat nThreads
  ∧ contiguous ps totalGrids
  ∧ pairwiseDisjoint ps
  ∧ coversExactlyOnce ps totalGrids
  ∧ (∀ t p, Z.of_nat t < nThreads - 1 → ps !! t = Some p →
       partitionSize p = totalGrids ÷ nThreads)
  ∧ (∀ p, last ps = Some p →
       partitionSize p = totalGrids ÷ nThreads + Z.rem totalGrids nThreads
       ∧ 0 ≤ Z.rem totalGrids nThreads < nThreads).
Proof.
  intros Hn Hr Hc totalGrids ps.
  assert (Htot : 0 ≤ totalGrids) by (unfold totalGrids; nia).
  destruct (threadSize_bounds nThreads totalGrids) as (Hq & Hsplit & Hrem);
    [done..|].
  split; [by apply makePartitions_length|].
  split; [by apply partitions_contiguous|].
  split; [by apply partitions_disjoint|].
  split; [by apply partitions_cover|].
  split.
  - intros t p Ht Hp.
    destruct (partition_cases nThreads totalGrids Hn Htot _ _ Hp)
      as [(_ & Hs & He)|(Hl & _)]; [|lia].
    unfold partitionSize. rewrite Hs, He. lia.
  - intros p Hp. split; [|done]. rewrite last_lookup in Hp.
    unfold ps in Hp. rewrite makePartitions_length in Hp by done.
    destruct (partition_cases nThreads totalGrids Hn Htot _ _ Hp)
      as [(Hlt & _)|(_ & Hs & He)]; [lia|].
    unfold partitionSize. rewrite Hs, He. lia.
Qed.

Lemma partitions_split_the_grid_witness :
  let totalGrids := 7 * 2 in
  let ps := makePartitions 5 totalGrids in
  length ps = Z.to_nat 5
  ∧ contiguous ps totalGrids
  ∧ pairwiseDisjoint ps
  ∧ coversExactlyOnce ps totalGrids
  ∧ (∀ t p, Z.of_nat t < 5 - 1 → ps !! t = Some p →
       partitionSize p = totalGrids ÷ 5)
  ∧ (∀ p, last ps = Some p →
       partitionSize p = totalGrids ÷ 5 + Z.rem totalGrids 5
       ∧ 0 ≤ Z.rem totalGrids 5 < 5).
Proof. apply (partitions_split_the_grid 5 7 2); lia. Defined.

(** Counterexample for C6 as the specification words it: on a grid of 7 rows and 2
    columns split among 5 threads the partitions are [0,2), [2,4), [4,6),
    [6,8) and [8,14); the last one has 6 cells, 4 more than the others, and a
    row has 2. *)
Lemma imbalance_exceeds_one_row : ¬ imbalanceWithinOneRow 5 7 2.
Proof.
  intros H.
  specialize (H (Partition 8 14) (Partition 0 2)).
  unfold partitionSize in H. simpl in H.
  assert (14 - 8 - (2 - 0) ≤ 2); [|lia].
  apply H; vm_compute; repeat constructor.
Qed.

(** ** The world without a live cell *)

Section DeadWorld.
Context (nRows nCols : Z).
Hypothesis HnRows : 0 ≤ nRows.
Hypothesis HnCols : 0 ≤ nCols.

Let dead := deadWorld nRows nCols.
Let total := nRows * nCols.

Lemma deadWorld_valid : validGrid dead nRows nCols.
Proof.
  repeat split; [done..|by apply length_replicate|].
  apply Forall_replicate. unfold DEAD_FACTION, MAX_FACTIONS. lia.
Qed.

Lemma deadWorld_cellAt r c : cellAt dead nCols r c = DEAD_FACTION.
Proof.
  unfold cellAt, dead, deadWorld.
  destruct (replicate _ _ !! _) as [v|] eqn:Hv; [|done].
  by apply lookup_replicate in Hv as [-> _].
Qed.

Lemma deadWorld_no_neighbour row col f :
  f ≠ DEAD_FACTION → neighbourCount dead nRows nCols row col f = 0.
Proof.
  intros Hf. unfold neighbourCount.
  induction neighbourOffsets as [|d ds IH]; [done|].
  cbn [countWhere]. rewrite IH. unfold holdsFaction.
  rewrite deadWorld_cellAt.
  destruct (Z.eqb_spec DEAD_FACTION f); [congruence|].
  by rewrite andb_false_r.
Qed.

Lemma getNextState_dead row col :
  inGrid nRows nCols row col = true →
  getNextState dead None nRows nCols row col = Some (DEAD_FACTION, false).
Proof.
  intros Hin.
  destruct (getNextState_by_counts dead None nRows nCols row col)
    as (counts & Hc & E); [apply deadWorld_valid|done|done|].
  rewrite E. cbn zeta. rewrite deadWorld_cellAt, Z.eqb_refl.
  destruct (birthScan_spec counts _ Hc) as (r & -> & Hr).
  destruct Hr as [[-> _]|(Hr & H3 & _)]; [done|].
  rewrite deadWorld_no_neighbour in H3; [lia|unfold DEAD_FACTION; lia].
Qed.

(** A cell index of the grid is the index of its row and column. *)
Lemma index_row_col (i : Z) :
  0 ≤ i < total →
  inGrid nRows nCols (i / nCols) (i mod nCols) = true
  ∧ cellIndex nCols (i / nCols) (i mod nCols) = i.
Proof.
  intros Hi. unfold total in Hi. assert (0 < nCols) by nia.
  pose proof (Z.div_mod i nCols ltac:(lia)).
  pose proof (Z.mod_pos_bound i nCols ltac:(lia)).
  assert (0 ≤ i / nCols) by (apply Z.div_pos; lia).
  split; [apply inGrid_true; nia|unfold cellIndex; lia].
Qed.

Lemma workerCell_dead (i : Z) (st : list Z * Z) :
  0 ≤ i < total → deadBelow total i st →
  ∃ st', workerCell dead None nRows nCols i st = Some st'
         ∧ deadBelow total (i + 1) st'.
Proof.
  intros Hi (Htoll & Hlen & Hbelow). destruct st as [next toll].
  simpl in Htoll, Hlen, Hbelow. subst toll.
  destruct (index_row_col i Hi) as [Hin Hidx].
  pose proof (workerCell_at dead None nRows nCols _ _ next 0 _ _
                ltac:(by repeat split) Hin (getNextState_dead _ _ Hin)) as E.
  rewrite Hidx in E. cbn zeta iota in E. eexists. split; [exact E|].
  unfold deadBelow. simpl. split; [done|]. split; [by rewrite length_insert|].
  intros k Hk. destruct (Z.eq_dec k i) as [->|Hne].
  - apply list_lookup_insert_eq. rewrite Hlen. unfold total in *. lia.
  - rewrite list_lookup_insert_ne by lia. apply Hbelow. lia.
Qed.

Lemma subroutineStep_dead (p : partition) (st : list Z * Z) :
  0 ≤ startIdx p ≤ endIdx p → endIdx p ≤ total →
  deadBelow total (startIdx p) st →
  ∃ st', subroutineStep dead None nRows nCols p st = Some st'
         ∧ deadBelow total (endIdx p) st'.
Proof.
  intros Hp Hend Hst. unfold subroutineStep.
  apply (forRange_invariant (deadBelow total)); [lia|done|].
  intros j t Hj Ht. apply workerCell_dead; [lia|done].
Qed.

Lemma firstWorkers_dead (n : nat) (index threadSize : Z) (st : list Z * Z) :
  0 ≤ index → 0 ≤ threadSize →
  index + Z.of_nat n * threadSize ≤ total →
  deadBelow total index st →
  ∃ st',
    runWorkers dead None nRows nCols
      (firstWorkers n index threadSize total).1 st = Some st'
    ∧ (firstWorkers n index threadSize total).2
      = index + Z.of_nat n * threadSize
    ∧ deadBelow total (index + Z.of_nat n * threadSize) st'.
Proof.
  revert index st. induction n as [|n IH]; intros index st Hi Hs Hfit Hst.
  - exists st. simpl. rewrite Z.add_0_r. done.
  - cbn [firstWorkers].
    destruct (firstWorkers n (index + threadSize) threadSize total)
      as [items index'] eqn:Hfw.
    cbn [fst snd runWorkers].
    destruct (subroutineStep_dead
                (Partition index (Z.min (index + threadSize) total)) st)
      as (st1 & E1 & H1); [simpl; lia..|done|].
    rewrite E1. cbn [mbind option_bind].
    simpl in H1. rewrite Z.min_l in H1 by lia.
    destruct (IH (index + threadSize) st1) as (st2 & E2 & Hidx & H2);
      [lia..|done|].
    rewrite Hfw in E2, Hidx. simpl in E2, Hidx.
    exists st2. split; [done|]. split; [lia|].
    by replace (index + Z.of_nat (S n) * threadSize)
      with (index + threadSize + Z.of_nat n * threadSize) by lia.
Qed.

Lemma runWorkers_app world inv ps qs st :
  runWorkers world inv nRows nCols (ps ++ qs) st
  = st' ← runWorkers world inv nRows nCols ps st;
    runWorkers world inv nRows nCols qs st'.
Proof.
  revert st. induction ps as [|p ps IH]; intros st; [done|].
  simpl. destruct (subroutineStep _ _ _ _ _ _); simpl; [apply IH|done].
Qed.

(** One generation of all workers on the dead world fills the next buffer,
    whatever it held, with the dead world, and records no death. *)
Lemma runWorkers_dead (nThreads : Z) (next : list Z) :
  1 ≤ nThreads →
  length next = Z.to_nat total →
  runWorkers dead None nRows nCols (makePartitions nThreads total) (next, 0)
  = Some (dead, 0).
Proof.
  intros Hn Hlen.
  assert (Htot : 0 ≤ total) by (unfold total; nia).
  destruct (threadSize_bounds nThreads total) as (Hq & Hsplit & Hrem);
    [done..|].
  unfold makePartitions.
  destruct (firstWorkers_dead (Z.to_nat (nThreads - 1)) 0
              (total ÷ nThreads) (next, 0)) as (st1 & E1 & Hidx & H1);
    [lia|done|rewrite Z2Nat.id by lia; nia| |].
  { repeat split; [done|]. simpl. intros k Hk. lia. }
  destruct (firstWorkers _ _ _ _) as [items index]. simpl in E1, Hidx.
  rewrite runWorkers_app, E1. cbn [mbind option_bind runWorkers].
  rewrite Z2Nat.id in Hidx, H1 by lia.
  destruct (subroutineStep_dead (Partition index total) st1)
    as (st2 & E2 & H2); [simpl; nia|simpl; lia|by rewrite Hidx|].
  rewrite E2. cbn [mbind option_bind].
  destruct st2 as [next2 toll2]. destruct H2 as (Ht & Hl & Hz).
  simpl in Ht, Hl, Hz. subst toll2. do 2 f_equal.
  apply list_eq. intros k. unfold dead, deadWorld. fold total.
  destruct (decide (k < Z.to_nat total)%nat) as [Hlt|Hge].
  - rewrite lookup_replicate_2 by done.
    specialize (Hz (Z.of_nat k) ltac:(lia)). by rewrite Nat2Z.id in Hz.
  - rewrite !lookup_ge_None_2; [done|rewrite length_replicate; lia|lia].
Qed.
End DeadWorld.

(** ** Copying a grid *)

Lemma setValueAt_inGrid grid nRows nCols r c v :
  sizedGrid grid nRows nCols →
  inGrid nRows nCols r c = true →
  setValueAt grid nRows nCols r c v
  = Some (<[Z.to_nat (cellIndex nCols r c) := v]> grid).
Proof.
  intros (_ & _ & Hlen) Hin. unfold setValueAt.
  rewrite outside_inGrid, Hin. cbn [negb].
  apply inGrid_true in Hin as [Hr Hc].
  pose proof (cell_index_lt nRows nCols r c Hr Hc).
  destruct (decide _); [done|lia].
Qed.

Lemma copyGrid_spec src dst nRows nCols :
  sizedGrid src nRows nCols →
  sizedGrid dst nRows nCols →
  copyGrid src dst nRows nCols = Some src.
Proof.
  intros Hsrc Hdst. pose proof Hsrc as (HnRows & HnCols & Hlen).
  pose proof Hdst as (_ & _ & Hlen').
  set (total := nRows * nCols).
  destruct (forRange_invariant
              (λ row g, copiedBelow src total (row * nCols) g)
              (λ row g, forRange 0 nCols (λ col g,
                 v ← getValueAt src nRows nCols row col;
                 setValueAt g nRows nCols row col v) g)
              0 nRows dst) as (g & E & Hg & Hcopied); [done| | |].
  - split; [done|]. intros k Hk. lia.
  - intros row g Hrow Hg.
    destruct (forRange_invariant
                (λ col g, copiedBelow src total (row * nCols + col) g)
                (λ col g, v ← getValueAt src nRows nCols row col;
                          setValueAt g nRows nCols row col v)
                0 nCols g) as (g' & E' & Hg'); [done| | |].
    + by rewrite Z.add_0_r.
    + intros col h Hcol (Hl & Hh).
      assert (Hin : inGrid nRows nCols row col = true)
        by (apply inGrid_true; lia).
      rewrite (getValueAt_inGrid src) by done. cbn [mbind option_bind].
      rewrite setValueAt_inGrid by (by repeat split).
      eexists. split; [done|]. split; [by rewrite length_insert|].
      intros k Hk. unfold cellIndex.
      pose proof (cell_index_lt nRows nCols row col ltac:(lia) ltac:(lia)).
      destruct (Z.eq_dec k (row * nCols + col)) as [->|Hne].
      * rewrite list_lookup_insert_eq by (rewrite Hl; unfold total; lia).
        unfold cellAt.
        destruct (lookup_lt_is_Some_2 src (Z.to_nat (row * nCols + col)))
          as [v Hv]; [lia|]. by rewrite Hv.
      * rewrite list_lookup_insert_ne by lia. apply Hh. lia.
    + exists g'. split; [done|].
      by replace ((row + 1) * nCols) with (row * nCols + nCols) by lia.
  - unfold copyGrid. rewrite E. f_equal. apply list_eq. intros k.
    destruct (decide (k < Z.to_nat total)%nat) as [Hlt|Hge].
    + specialize (Hcopied (Z.of_nat k) ltac:(unfold total in *; lia)).
      by rewrite Nat2Z.id in Hcopied.
    + rewrite !lookup_ge_None_2; [done|unfold total in *; lia..].
Qed.

(** ** Running goi *)

Lemma bind_run {A B : Type} (c : M A) (f : A → M B) (m m' : mem) (a : A) :
  c m = Some (a, m') → (c ≫= f) m = f a m'.
Proof. intros E. unfold mbind, M_bind. by rewrite E. Qed.

Lemma ret_run {A : Type} (a : A) (m : mem) : (mret a : M A) m = Some (a, m).
Proof. reflexivity. Qed.

Ltac run E := rewrite (bind_run _ _ _ _ _ E).

Lemma malloc_ok (e : env) (fresh : nat → block) (m : mem) :
  alloc_ok e (mallocs m) = true →
  malloc e fresh m
  = Some (Some (brk m),
          Mem (<[brk m := fresh (mallocs m)]> (heap m)) (S (brk m))
              (S (mallocs m)) (observed m)).
Proof. intros Hok. unfold malloc. by rewrite Hok. Qed.

Lemma free_live (p : nat) (b : block) (m : mem) :
  heap m !! p = Some b →
  free p m = Some (tt, Mem (delete p (heap m)) (brk m) (mallocs m) (observed m)).
Proof. intros Hp. unfold free. by rewrite Hp. Qed.

Lemma loadGrid_live (p : nat) (cells : list Z) (m : mem) :
  heap m !! p = Some (Grid cells) → loadGrid p m = Some (cells, m).
Proof. intros Hp. unfold loadGrid. by rewrite Hp. Qed.

Lemma storeGrid_live (p : nat) (old cells : list Z) (m : mem) :
  heap m !! p = Some (Grid old) →
  storeGrid p cells m
  = Some (tt, Mem (<[p := Grid cells]> (heap m)) (brk m) (mallocs m)
                  (observed m)).
Proof. intros Hp. unfold storeGrid. by rewrite Hp. Qed.

Lemma allocItems_spec (e : env) (parts : list partition) (m : mem) :
  (∀ k, alloc_ok e k = true) →
  ∃ m',
    allocItems e parts m = Some (seq (brk m) (length parts), m')
    ∧ brk m' = (brk m + length parts)%nat
    ∧ observed m' = observed m
    ∧ ∀ p, heap m' !! p
           = if decide (brk m ≤ p < brk m + length parts)%nat
             then Some Control else heap m !! p.
Proof.
  intros Hok. revert m. induction parts as [|part parts IH]; intros m.
  - exists m. repeat split; [simpl; lia|].
    intros p. case_decide; [simpl in *; lia|done].
  - cbn [allocItems length seq].
    pose proof (malloc_ok e (λ _, Control) m (Hok _)) as Em.
    set (m1 := Mem _ _ _ _) in Em.
    destruct (IH m1) as (m' & E & Hbrk & Hobs & Hheap).
    exists m'. split; [run Em; by run E|].
    split; [simpl in Hbrk; lia|]. split; [done|].
    intros p. rewrite Hheap. simpl.
    destruct (decide (p = brk m)) as [->|Hne].
    + rewrite lookup_insert_eq. repeat case_decide; try lia; done.
    + rewrite lookup_insert_ne by done. repeat case_decide; try lia; done.
Qed.

Lemma freeItems_spec (items : list nat) (m : mem) :
  NoDup items →
  (∀ p, p ∈ items → is_Some (heap m !! p)) →
  ∃ m',
    freeItems items m = Some (tt, m')
    ∧ brk m' = brk m
    ∧ observed m' = observed m
    ∧ ∀ p, heap m' !! p = if decide (p ∈ items) then None else heap m !! p.
Proof.
  revert m. induction items as [|item items IH]; intros m Hnd Hlive.
  - exists m. by repeat split.
  - apply NoDup_cons in Hnd as [Hnotin Hnd].
    destruct (Hlive item) as [b Hb]; [apply elem_of_cons; by left|].
    pose proof (free_live item b m Hb) as Ef.
    set (m1 := Mem _ _ _ _) in Ef.
    destruct (IH m1 Hnd) as (m' & E & Hbrk & Hobs & Hheap).
    { intros p Hp. simpl. rewrite lookup_delete_ne by congruence.
      apply Hlive. apply elem_of_cons. by right. }
    exists m'. split; [cbn [freeItems]; run Ef; exact E|].
    split; [done|]. split; [done|].
    intros p. rewrite Hheap. simpl.
    destruct (decide (p = item)) as [->|Hne].
    + rewrite lookup_delete_eq.
      rewrite (decide_True (P := item ∈ item :: items))
        by (apply elem_of_cons; by left).
      by case_decide.
    + rewrite lookup_delete_ne by done.
      destruct (decide (p ∈ items)) as [Hin|Hout].
      * by rewrite decide_True by (apply elem_of_cons; by right).
      * by rewrite decide_False by (rewrite elem_of_cons; tauto).
Qed.

Lemma copyInto_spec (p : nat) (src old : list Z) (nRows nCols : Z) (m : mem) :
  heap m !! p = Some (Grid old) →
  sizedGrid old nRows nCols →
  sizedGrid src nRows nCols →
  copyInto p src nRows nCols m
  = Some (tt, Mem (<[p := Grid src]> (heap m)) (brk m) (mallocs m) (observed m)).
Proof.
  intros Hp Hold Hsrc. unfold copyInto.
  run (loadGrid_live p old m Hp). rewrite (copyGrid_spec src old) by done.
  run (eq_refl : liftO (Some src) m = Some (src, m)).
  by apply storeGrid_live with old.
Qed.

Lemma createThreads_plentiful (junk : nat → nat → Z) (nThreads : Z) :
  createThreads (plentiful junk) nThreads = true.
Proof.
  unfold createThreads. induction (seq 0 (Z.to_nat nThreads)); [done|].
  simpl. done.
Qed.

Lemma intSucc_below (i : Z) : i < INT_MAX → intSucc i = Some (i + 1).
Proof.
  intros Hi. unfold intSucc. by destruct (Z.ltb_spec i INT_MAX); [|lia].
Qed.

Section DeadRun.
Context (junk : nat → nat → Z) (nThreads nRows nCols : Z).
Context (invasionTimes : list Z) (invasionPlans : list (list Z)).
Hypothesis Hthreads : 1 ≤ nThreads.
Hypothesis HnRows : 0 ≤ nRows.
Hypothesis HnCols : 0 ≤ nCols.

Let e := plentiful junk.
Let total := nRows * nCols.
Let dead := deadWorld nRows nCols.
Let parts := makePartitions nThreads total.

(** A generation without invasion on the dead world: a fresh next buffer
    is filled with the dead world and adopted, the old world is freed. *)
Lemma generation_dead (ctrl : list nat) (k : nat) (w : nat) (i : Z)
    (spawned : bool) (m : mem) :
  deadLayout nRows nCols ctrl k w m →
  ∃ m',
    generation e nThreads nRows nCols total 0 invasionTimes invasionPlans
      parts i (SimState w 0 0 spawned) m
    = Some (inl (SimState (brk m) 0 0 true), m')
    ∧ deadLayout nRows nCols ctrl (S k) (brk m) m'.
Proof.
  intros (Hheap & Hw & Hwb & Hctrl & Hobs).
  unfold generation, materialize.
  cbn [invasionIndex world deathToll spawnThreads].
  change (0 <? 0) with false. cbn iota.
  run (ret_run (Some (@None nat, 0)) m).
  pose proof (malloc_ok e (freshGrid e total) m eq_refl) as Em.
  set (m1 := Mem _ _ _ _) in Em. run Em.
  unfold e at 1. rewrite createThreads_plentiful, andb_false_r. fold e.
  assert (Hw1 : heap m1 !! w = Some (Grid dead)).
  { simpl. rewrite lookup_insert_ne by lia. rewrite Hheap.
    by rewrite decide_True. }
  run (loadGrid_live w dead m1 Hw1). cbn [loadIfNotNull].
  run (ret_run (@None (list Z)) m1).
  set (next := garbage e (mallocs m) <$> seq 0 (Z.to_nat total)).
  assert (Hlen : length next = Z.to_nat total)
    by (unfold next; by rewrite length_fmap, length_seq).
  assert (Hb1 : heap m1 !! brk m = Some (Grid next))
    by apply lookup_insert_eq.
  run (loadGrid_live (brk m) next m1 Hb1).
  unfold parts, total, dead.
  rewrite (runWorkers_dead nRows nCols HnRows HnCols nThreads next Hthreads Hlen).
  fold dead.
  run (eq_refl : liftO (Some (dead, 0)) m1 = Some ((dead, 0), m1)).
  cbn beta iota.
  pose proof (storeGrid_live (brk m) next dead m1 Hb1) as Es.
  set (m2 := Mem _ _ _ _) in Es. run Es. cbn [freeIfNotNull].
  run (ret_run tt m2).
  assert (Hw2 : heap m2 !! w = Some (Grid dead)).
  { simpl. rewrite !lookup_insert_ne by lia. rewrite Hheap.
    by rewrite decide_True. }
  pose proof (free_live w _ m2 Hw2) as Ef.
  set (m3 := Mem _ _ _ _) in Ef. run Ef.
  run (eq_refl : observe dead m3
                 = Some (tt, Mem (heap m3) (brk m3) (mallocs m3)
                                 (observed m3 ++ [dead]))).
  eexists. split; [reflexivity|].
  split; [|split; [|split; [|split]]]; simpl.
  - intros p. destruct (decide (p = w)) as [->|Hpw].
    + rewrite lookup_delete_eq. rewrite decide_False by lia.
      by rewrite decide_False.
    + rewrite lookup_delete_ne by done.
      destruct (decide (p = brk m)) as [->|Hpb].
      * by rewrite lookup_insert_eq.
      * rewrite !lookup_insert_ne by done. rewrite Hheap.
        by rewrite decide_False.
  - intros Hin. apply Hctrl in Hin. lia.
  - lia.
  - intros p Hp. apply Hctrl in Hp. lia.
  - rewrite Hobs. fold dead. by rewrite <- replicate_cons_app.
Qed.

(** Any number of generations whose counter stays an int; the workers
    exist at the end exactly when they existed before or a generation ran. *)
Lemma generations_dead (ctrl : list nat) (n k : nat) (w : nat) (i : Z)
    (spawned : bool) (m : mem) :
  deadLayout nRows nCols ctrl k w m →
  i + Z.of_nat n ≤ INT_MAX →
  ∃ w' m',
    loopM n i
      (generation e nThreads nRows nCols total 0 invasionTimes invasionPlans
         parts)
      (SimState w 0 0 spawned) m
    = Some (inl (SimState w' 0 0 (match n with O => spawned | _ => true end)),
            m')
    ∧ deadLayout nRows nCols ctrl (n + k) w' m'.
Proof.
  revert k w i spawned m.
  induction n as [|n IH]; intros k w i spawned m Hm Hi.
  - exists w, m. split; [reflexivity|done].
  - destruct (generation_dead ctrl k w i spawned m Hm) as (m1 & E1 & H1).
    destruct (IH (S k) (brk m) (i + 1) true m1 H1) as (w' & m' & E & H');
      [lia|].
    exists w', m'. split.
    + cbn [loopM]. run E1. rewrite (intSucc_below i) by lia.
      run (eq_refl : liftO (Some (i + 1)) m1 = Some (i + 1, m1)).
      rewrite E. by destruct n.
    + by replace (S n + k)%nat with (n + S k)%nat by lia.
Qed.

(** The whole run on the dead world, without invasion: with at least one
    generation the toll 0 is returned, every observed world is the dead
    world and every block is released; with none, the join after the loop
    reads handles that were never written. *)
Lemma dead_run (nGenerations : Z) :
  nGenerations < INT_MAX →
  nRows * nCols ≤ INT_MAX →
  if decide (1 ≤ nGenerations)
  then ∃ m,
         goi (plentiful junk) nThreads nGenerations (deadWorld nRows nCols)
           nRows nCols 0 invasionTimes invasionPlans emptyMem
         = Some (Returned 0, m)
         ∧ observed m
           = replicate (S (Z.to_nat nGenerations)) (deadWorld nRows nCols)
         ∧ heap m = ∅
  else goi (plentiful junk) nThreads nGenerations (deadWorld nRows nCols)
         nRows nCols 0 invasionTimes invasionPlans emptyMem
       = None.
Proof.
  intros Hgen Hmax. unfold goi.
  destruct (Z.ltb_spec nThreads 1) as [?|_]; [lia|].
    destruct (Z.ltb_spec nRows 0) as [?|_]; [lia|].
  destruct (Z.ltb_spec nCols 0) as [?|_]; [lia|]. cbn [orb].
  fold e.
  pose proof (malloc_ok e (λ _, Control) emptyMem eq_refl) as E0.
  set (m0 := Mem _ _ _ _) in E0. run E0.
  assert (Hmul : intMul nRows nCols = Some total).
  { unfold intMul, INT_MIN. fold total.
    destruct (Z.leb_spec (-2147483648) total); [|unfold total in *; nia].
    destruct (Z.leb_spec total INT_MAX); [done|unfold total in *; lia]. }
  rewrite Hmul.
  run (eq_refl : liftO (Some total) m0 = Some (total, m0)).
  pose proof (malloc_ok e (freshGrid e total) m0 eq_refl) as E1.
  set (m1 := Mem _ _ _ _) in E1. run E1.
  assert (Hdead : sizedGrid dead nRows nCols)
    by (apply validGrid_sized, deadWorld_valid; done).
  assert (Hjunk : sizedGrid (garbage e 1 <$> seq 0 (Z.to_nat total))
                    nRows nCols)
    by (repeat split; [done..|by rewrite length_fmap, length_seq]).
  pose proof (copyInto_spec 1 dead _ nRows nCols m1
                (lookup_insert_eq _ _ _) Hjunk Hdead) as E2.
  set (m2 := Mem _ _ _ _) in E2. change (brk m0) with 1%nat.
  fold dead. run E2.
  destruct (allocItems_spec e (makePartitions nThreads total) m2)
    as (m3 & E3 & Hbrk3 & Hobs3 & Hheap3); [done|].
  run E3. change (brk m2) with 2%nat in *.
  set (n := length (makePartitions nThreads total)) in *.
  assert (Hw3 : heap m3 !! 1%nat = Some (Grid dead)).
  { rewrite Hheap3, decide_False by lia. apply lookup_insert_eq. }
  run (loadGrid_live 1 dead m3 Hw3).
  set (m4 := Mem (heap m3) (brk m3) (mallocs m3) (observed m3 ++ [dead])).
  run (eq_refl : observe dead m3 = Some (tt, m4)).
  assert (H4 : deadLayout nRows nCols (0%nat :: seq 2 n) 1 1 m4).
  { split; [|split; [|split; [|split]]]; simpl.
    - intros p. rewrite Hheap3. unfold m2, m1, m0, emptyMem. cbn [heap brk].
      destruct (decide (p = 1%nat)) as [->|Hp1].
      + rewrite decide_False by lia. apply lookup_insert_eq.
      + destruct (decide (2 ≤ p < 2 + n)%nat) as [Hin|Hout].
        * rewrite decide_True; [done|].
          apply elem_of_cons. right. apply elem_of_seq. lia.
        * rewrite !(lookup_insert_ne _ 1%nat) by done.
          destruct (decide (p = 0%nat)) as [->|Hp0].
          -- rewrite decide_True by (apply elem_of_cons; by left).
             apply lookup_insert_eq.
          -- rewrite lookup_insert_ne, lookup_empty by done.
             rewrite decide_False; [done|].
             rewrite elem_of_cons, elem_of_seq. lia.
    - rewrite elem_of_cons, elem_of_seq. lia.
    - lia.
    - intros p. rewrite elem_of_cons, elem_of_seq. lia.
    - by rewrite Hobs3. }
  destruct (generations_dead _ (Z.to_nat nGenerations) 1 1 1 false m4 H4)
    as (w' & m5 & E5 & (Hheap5 & Hw5 & _ & _ & Hobs5));
    [unfold INT_MAX in *; lia|].
  fold parts. run E5. cbn [world deathToll spawnThreads].
  case_decide as Hone; cycle 1.
  { replace (Z.to_nat nGenerations) with 0%nat by lia. reflexivity. }
  destruct (Z.to_nat nGenerations) as [|n'] eqn:En; [lia|].
  cbn [joinThreads]. run (ret_run tt m5).
  assert (Hw' : heap m5 !! w' = Some (Grid dead))
    by (by rewrite Hheap5, decide_True).
  pose proof (free_live w' _ m5 Hw') as E6.
  set (m6 := Mem _ _ _ _) in E6. run E6.
  assert (Hheap6 : ∀ p, heap m6 !! p
                        = if decide (p ∈ 0%nat :: seq 2 n)
                          then Some Control else None).
  { intros p. simpl. destruct (decide (p = w')) as [->|Hne].
    - rewrite lookup_delete_eq. by rewrite decide_False.
    - rewrite lookup_delete_ne by done. rewrite Hheap5.
      by rewrite decide_False. }
  destruct (freeItems_spec (seq 2 n) m6)
    as (m7 & E7 & _ & Hobs7 & Hheap7); [apply NoDup_seq| |].
  { intros p Hp. rewrite Hheap6, decide_True; [done|].
    apply elem_of_cons. by right. }
  run E7.
  assert (Hss : heap m7 !! 0%nat = Some Control).
  { rewrite Hheap7, decide_False by (rewrite elem_of_seq; lia).
    rewrite Hheap6, decide_True; [done|]. apply elem_of_cons. by left. }
  pose proof (free_live 0 _ m7 Hss) as E8.
  set (m8 := Mem _ _ _ _) in E8. change (brk emptyMem) with 0%nat. run E8.
  exists m8. split; [reflexivity|]. split.
  - simpl. rewrite Hobs7. simpl. rewrite Hobs5.
    by rewrite Nat.add_1_r.
  - apply map_empty. intros p. simpl.
    destruct (decide (p = 0%nat)) as [->|Hp0]; [apply lookup_delete_eq|].
    rewrite lookup_delete_ne by done. rewrite Hheap7.
    case_decide; [done|]. rewrite Hheap6, decide_False; [done|].
    rewrite elem_of_cons. tauto.
Qed.
End DeadRun.

(** C7. A world without a live cell, run without invasion, is not left
    unchanged with the toll 0 for every number of generations from 0 on: for
    zero generations the loop that creates the workers has no pass, and goi
    goes on to join the handles of [threads], which were never written.  On
    the world without a live cell, with at least one thread, every
    allocation succeeding and no invasion scheduled, a call with no
    generation to run has no defined result. *)
Theorem no_generation_joins_unstarted_workers (junk : nat → nat → Z)
    (nThreads nGenerations nRows nCols : Z) (invasionTimes : list Z)
    (invasionPlans : list (list Z)) :
  1 ≤ nThreads → 0 ≤ nRows → 0 ≤ nCols →
  nRows * nCols ≤ INT_MAX →
  nGenerations ≤ 0 →
  goi (plentiful junk) nThreads nGenerations (deadWorld nRows nCols)
    nRows nCols 0 invasionTimes invasionPlans emptyMem
  = None.
Proof.
  intros Hthreads HnRows HnCols Hmax Hgen.
  pose proof (dead_run junk nThreads nRows nCols invasionTimes invasionPlans
                Hthreads HnRows HnCols nGenerations) as H.
  rewrite decide_False in H by lia. apply H; [unfold INT_MAX; lia|done].
Qed.

Lemma no_generation_joins_unstarted_workers_witness :
  goi (plentiful (λ _ _, 7)) 2 0 (deadWorld 3 3) 3 3 0 [] [] emptyMem = None.
Proof.
  apply (no_generation_joins_unstarted_workers (λ _ _, 7) 2 0 3 3 [] []);
    unfold INT_MAX; lia.
Defined.



(** ** Which blocks an early return leaves behind *)

Lemma bind_inv {A B : Type} (c : M A) (f : A → M B) (m : mem) (r : B * mem) :
  (c ≫= f) m = Some r → ∃ a m1, c m = Some (a, m1) ∧ f a m1 = Some r.
Proof.
  unfold mbind, M_bind. destruct (c m) as [[a m1]|]; [|done]. eauto.
Qed.

Lemma ret_inv {A : Type} (a b : A) (m m1 : mem) :
  (mret a : M A) m = Some (b, m1) → b = a ∧ m1 = m.
Proof. by intros [= -> ->]. Qed.

Lemma gridsIn_weaken (P Q : nat → Prop) (m : mem) :
  (∀ p, P p → Q p) → gridsIn P m → gridsIn Q m.
Proof. intros HPQ Hm p cells Hp. eauto. Qed.

Lemma noGridLive_gridsIn (m : mem) : gridsIn (λ _, False) m → noGridLive m.
Proof.
  intros Hm p b Hp. destruct b as [cells|]; [|done]. by destruct (Hm p cells).
Qed.

Lemma malloc_grids e fresh P m r m1 :
  malloc e fresh m = Some (r, m1) → gridsIn P m →
  gridsIn (λ p, P p ∨ r = Some p) m1.
Proof.
  unfold malloc. destruct (alloc_ok e (mallocs m)); intros [= <- <-] Hm p cells;
    simpl.
  - destruct (decide (p = brk m)) as [->|Hne]; [by right|].
    rewrite lookup_insert_ne by done. left. eauto.
  - left. eauto.
Qed.

Lemma malloc_control_grids e P m r m1 :
  malloc e (λ _, Control) m = Some (r, m1) → gridsIn P m → gridsIn P m1.
Proof.
  unfold malloc. destruct (alloc_ok e (mallocs m)); intros [= <- <-] Hm p cells;
    simpl; [|by eauto].
  destruct (decide (p = brk m)) as [->|Hne].
  - by rewrite lookup_insert_eq.
  - rewrite lookup_insert_ne by done. eauto.
Qed.

Lemma free_grids p P m u m1 :
  free p m = Some (u, m1) → gridsIn P m → gridsIn (λ q, P q ∧ q ≠ p) m1.
Proof.
  unfold free. destruct (heap m !! p); [|done]. intros [= <- <-] Hm q cells.
  simpl. destruct (decide (q = p)) as [->|Hne].
  - by rewrite lookup_delete_eq.
  - rewrite lookup_delete_ne by done. eauto.
Qed.

Lemma loadGrid_inv p m cells m1 :
  loadGrid p m = Some (cells, m1) → m1 = m.
Proof.
  unfold loadGrid. destruct (heap m !! p) as [[?|]|]; [|done..].
  by intros [= _ ->].
Qed.

Lemma storeGrid_grids p cells P m u m1 :
  storeGrid p cells m = Some (u, m1) → gridsIn P m → gridsIn P m1.
Proof.
  unfold storeGrid. destruct (heap m !! p) as [[old|]|] eqn:Hp; [|done..].
  intros [= <- <-] Hm q cells'. simpl.
  destruct (decide (q = p)) as [->|Hne]; [eauto|].
  rewrite lookup_insert_ne by done. eauto.
Qed.

Lemma liftO_inv {A : Type} (o : option A) (m : mem) (a : A) (m1 : mem) :
  liftO o m = Some (a, m1) → o = Some a ∧ m1 = m.
Proof. unfold liftO. destruct o; [|done]. by intros [= -> ->]. Qed.

(** Takes the next step of a run that is known to return. *)
Ltac step H :=
  let a := fresh "a" in
  let m := fresh "m" in
  let E := fresh "E" in
  apply bind_inv in H as (a & m & E & H).

Lemma copyInto_grids p src nRows nCols P m u m1 :
  copyInto p src nRows nCols m = Some (u, m1) → gridsIn P m → gridsIn P m1.
Proof.
  unfold copyInto. intros H Hm. step H. step H.
  apply loadGrid_inv in E as ->. apply liftO_inv in E0 as [_ ->].
  by apply (storeGrid_grids _ _ _ _ _ _ H).
Qed.

Lemma allocItems_grids e parts P m items m1 :
  allocItems e parts m = Some (items, m1) → gridsIn P m → gridsIn P m1.
Proof.
  revert m items. induction parts as [|part parts IH]; intros m items H Hm.
  - by apply ret_inv in H as [_ ->].
  - cbn [allocItems] in H. step H. destruct a as [item|]; [|done].
    step H. apply ret_inv in H as [_ ->].
    apply (IH _ _ E0). by apply (malloc_control_grids _ _ _ _ _ E).
Qed.

Lemma freeItems_grids items P m u m1 :
  freeItems items m = Some (u, m1) → gridsIn P m → gridsIn P m1.
Proof.
  revert m. induction items as [|item items IH]; intros m H Hm.
  - by apply ret_inv in H as [_ ->].
  - cbn [freeItems] in H. step H. apply (IH _ H).
    apply (gridsIn_weaken (λ q, P q ∧ q ≠ item)); [tauto|].
    by apply (free_grids _ _ _ _ _ E).
Qed.

Lemma freeIfNotNull_grids inv P m u m1 :
  freeIfNotNull inv m = Some (u, m1) → gridsIn P m →
  gridsIn (λ q, P q ∧ inv ≠ Some q) m1.
Proof.
  destruct inv as [p|]; simpl; intros H Hm.
  - apply (gridsIn_weaken (λ q, P q ∧ q ≠ p)); [|by apply (free_grids _ _ _ _ _ H)].
    intros q [? ?]. split; [done|congruence].
  - apply ret_inv in H as [_ ->].
    by apply (gridsIn_weaken P); [intros q ?; split|].
Qed.

Lemma materialize_grids e nRows nCols totalGrids nInvasions invasionTimes
    invasionPlans i invasionIndex P m overlay m1 :
  materialize e nRows nCols totalGrids nInvasions invasionTimes invasionPlans
    i invasionIndex m = Some (overlay, m1) →
  gridsIn P m →
  match overlay with
  | None => gridsIn P m1
  | Some (inv, _) => gridsIn (λ p, P p ∨ inv = Some p) m1
  end.
Proof.
  unfold materialize. intros H Hm.
  destruct (invasionIndex <? nInvasions).
  - destruct (invasionIndex <? 0); [done|]. step H.
    apply liftO_inv in E as [_ ->]. destruct (i =? a).
    + step H. pose proof (malloc_grids _ _ _ _ _ _ E Hm) as Hm0.
      destruct a0 as [inv|].
      * step H. step H. apply liftO_inv in E0 as [_ ->].
        apply ret_inv in H as [-> ->].
        by apply (copyInto_grids _ _ _ _ _ _ _ _ E1).
      * apply ret_inv in H as [-> ->].
        apply (gridsIn_weaken (λ p, P p ∨ @None nat = Some p));
          [by intros p [?|?]|done].
    + apply ret_inv in H as [-> ->]. by apply (gridsIn_weaken P); [left|].
  - apply ret_inv in H as [-> ->]. by apply (gridsIn_weaken P); [left|].
Qed.

Lemma loadIfNotNull_inv inv m cells m1 :
  loadIfNotNull inv m = Some (cells, m1) → m1 = m.
Proof.
  destruct inv as [p|]; simpl; intros H.
  - step H. apply ret_inv in H as [_ ->]. by apply loadGrid_inv in E.
  - by apply ret_inv in H as [_ ->].
Qed.

Lemma observe_grids cells P m u m1 :
  observe cells m = Some (u, m1) → gridsIn P m → gridsIn P m1.
Proof. by intros [= <- <-]. Qed.

Lemma exit_grids m u m1 : exit m = Some (u, m1) → gridsIn (λ _, False) m1.
Proof. intros [= _ <-] p cells Hp. simpl in Hp. by rewrite lookup_empty in Hp. Qed.

(** A generation either hands over one grid buffer, the new world, or
    leaves goi (return -1, or exit) with no grid buffer left. *)
Lemma generation_grids e nThreads nRows nCols totalGrids nInvasions
    invasionTimes invasionPlans parts i s m r m' :
  generation e nThreads nRows nCols totalGrids nInvasions invasionTimes
    invasionPlans parts i s m = Some (r, m') →
  gridsIn (λ p, p = world s) m →
  match r with
  | inl s' => gridsIn (λ p, p = world s') m'
  | inr _ => gridsIn (λ _, False) m'
  end.
Proof.
  unfold generation. intros H Hm. step H.
  apply (materialize_grids _ _ _ _ _ _ _ _ _ _ _ _ _ E) in Hm.
  destruct a as [[inv invasionIndex']|].
  - step H. apply (malloc_grids _ _ _ _ _ _ E0) in Hm.
    destruct a as [wholeNewWorld|].
    + destruct (negb (spawnThreads s) && negb (createThreads e nThreads)).
      { step H. apply ret_inv in H as [-> ->]. by apply exit_grids in E1. }
      step H. apply loadGrid_inv in E1 as ->.
      step H. apply loadIfNotNull_inv in E1 as ->.
      step H. apply loadGrid_inv in E1 as ->.
      step H. apply liftO_inv in E1 as [_ ->]. destruct a2 as [next' toll'].
      step H. apply (storeGrid_grids _ _ _ _ _ _ E1) in Hm.
      step H. apply (freeIfNotNull_grids _ _ _ _ _ E2) in Hm.
      step H. apply (free_grids _ _ _ _ _ E3) in Hm.
      step H. apply (observe_grids _ _ _ _ _ E4) in Hm.
      apply ret_inv in H as [-> ->]. simpl.
      revert Hm. apply gridsIn_weaken. intros q [[[[?|?]|[= ?]] ?] ?]; done.
    + step H. apply (freeIfNotNull_grids _ _ _ _ _ E1) in Hm.
      step H. apply (free_grids _ _ _ _ _ E2) in Hm.
      apply ret_inv in H as [-> ->].
      revert Hm. apply gridsIn_weaken. intros q [[[[?|?]|?] ?] ?]; done.
  - step H. apply (free_grids _ _ _ _ _ E0) in Hm.
    apply ret_inv in H as [-> ->].
    revert Hm. apply gridsIn_weaken. by intros q [? ?].
Qed.

Lemma generations_grids e nThreads nRows nCols totalGrids nInvasions
    invasionTimes invasionPlans parts n i s m r m' :
  loopM n i
    (generation e nThreads nRows nCols totalGrids nInvasions invasionTimes
       invasionPlans parts) s m = Some (r, m') →
  gridsIn (λ p, p = world s) m →
  match r with
  | inl s' => gridsIn (λ p, p = world s') m'
  | inr _ => gridsIn (λ _, False) m'
  end.
Proof.
  revert i s m. induction n as [|n IH]; intros i s m H Hm.
  - by apply ret_inv in H as [-> ->].
  - cbn [loopM] in H. step H.
    apply (generation_grids _ _ _ _ _ _ _ _ _ _ _ _ _ _ E) in Hm.
    destruct a as [s'|v].
    + step H. apply liftO_inv in E0 as [_ ->]. by apply (IH _ _ _ H).
    + by apply ret_inv in H as [-> ->].
Qed.

Lemma joinThreads_inv created m u m1 :
  joinThreads created m = Some (u, m1) → created = true ∧ m1 = m.
Proof. destruct created; [|done]. by intros [= _ ->]. Qed.

(** X11. Whenever goi returns, by the normal exit or by one of the early
    returns, no grid buffer is live any more: what can stay behind are
    control blocks only. *)
Lemma goi_releases_grid_buffers e nThreads nGenerations startWorld nRows nCols
    nInvasions invasionTimes invasionPlans r m :
  goi e nThreads nGenerations startWorld nRows nCols nInvasions invasionTimes
    invasionPlans emptyMem = Some (r, m) →
  noGridLive m.
Proof.
  unfold goi. intros H. apply noGridLive_gridsIn.
  destruct (_ || _); [done|]. step H.
  assert (Hm : gridsIn (λ _, False) m0).
  { apply (malloc_control_grids _ _ _ _ _ E). intros p cells Hp.
    unfold emptyMem in Hp. cbn [heap] in Hp. by rewrite lookup_empty in Hp. }
  destruct a as [sharedStructs|]; cycle 1.
  { step H. apply ret_inv in H as [_ ->]. by apply exit_grids in E0. }
  step H. apply liftO_inv in E0 as [_ ->].
  step H. apply (malloc_grids _ _ _ _ _ _ E0) in Hm.
  destruct a0 as [w|].
  - step H. apply (copyInto_grids _ _ _ _ _ _ _ _ E1) in Hm.
    step H. apply (allocItems_grids _ _ _ _ _ _ E2) in Hm.
    step H. apply loadGrid_inv in E3 as ->.
    step H. apply (observe_grids _ _ _ _ _ E3) in Hm.
    step H.
    apply (gridsIn_weaken _ (λ p, p = world (SimState w 0 0 false))) in Hm;
      [|by intros q [[]|[= ->]]].
    apply (generations_grids _ _ _ _ _ _ _ _ _ _ _ _ _ _ _ E4) in Hm.
    destruct a4 as [s|v].
    + step H. apply joinThreads_inv in E5 as [_ ->].
      step H. apply (free_grids _ _ _ _ _ E5) in Hm.
      step H. apply (freeItems_grids _ _ _ _ _ E6) in Hm.
      step H. apply (free_grids _ _ _ _ _ E7) in Hm.
      apply ret_inv in H as [_ ->].
      revert Hm. apply gridsIn_weaken. by intros q [[? ?] ?].
    + by apply ret_inv in H as [_ ->].
  - apply ret_inv in H as [_ ->].
    revert Hm. apply gridsIn_weaken. by intros q [?|?].
Qed.

(** ** Allocation failures *)

Lemma malloc_fails (e : env) (fresh : nat → block) (m : mem) :
  alloc_ok e (mallocs m) = false →
  malloc e fresh m
  = Some (None, Mem (heap m) (brk m) (S (mallocs m)) (observed m)).
Proof. intros Hok. unfold malloc. by rewrite Hok. Qed.

(** X12. For every input of the entry contract: when the [sharedStructs]
    array is obtained and the world copy is not, goi returns -1 and the array
    is still live. *)
Lemma world_copy_failure_leaks e nThreads nGenerations startWorld nRows nCols
    nInvasions invasionTimes invasionPlans :
  1 ≤ nThreads → 0 ≤ nRows → 0 ≤ nCols → nRows * nCols ≤ INT_MAX →
  alloc_ok e 0 = true → alloc_ok e 1 = false →
  ∃ m,
    goi e nThreads nGenerations startWorld nRows nCols nInvasions
      invasionTimes invasionPlans emptyMem = Some (Returned (-1), m)
    ∧ heap m !! 0%nat = Some Control.
Proof.
  intros Hn Hr Hc Hmax Hok0 Hok1. unfold goi.
  destruct (Z.ltb_spec nThreads 1) as [?|_]; [lia|].
  destruct (Z.ltb_spec nRows 0) as [?|_]; [lia|].
  destruct (Z.ltb_spec nCols 0) as [?|_]; [lia|]. cbn [orb].
  pose proof (malloc_ok e (λ _, Control) emptyMem Hok0) as E0.
  set (m0 := Mem _ _ _ _) in E0. run E0.
  assert (Hmul : intMul nRows nCols = Some (nRows * nCols)).
  { unfold intMul, INT_MIN.
    destruct (Z.leb_spec (-2147483648) (nRows * nCols)); [|nia].
    by destruct (Z.leb_spec (nRows * nCols) INT_MAX); [|lia]. }
  rewrite Hmul.
  run (eq_refl : liftO (Some (nRows * nCols)) m0 = Some (nRows * nCols, m0)).
  pose proof (malloc_fails e (freshGrid e (nRows * nCols)) m0 Hok1) as E1.
  set (m1 := Mem _ _ _ _) in E1. run E1.
  exists m1. split; [reflexivity|]. apply lookup_insert_eq.
Qed.

(** C8. In each of the three places where a grid buffer is allocated, a
    failed allocation makes goi return -1 with every grid buffer released,
    but the control blocks allocated before (the [sharedStructs] array of
    line 211, marked "need to clean", and the [shared] items of lines 237 and
    257) are not released, as they are on the normal exit (lines 372-379). *)
Theorem allocation_failure_leaks_control_blocks :
  outcome (goi (failingAt 1) 2 2 blinker 3 3 0 [] [] emptyMem)
  = Some (Returned (-1), [(0%nat, Control)])
  ∧ outcome (goi (failingAt 5) 2 2 [1; 0; 0; 0] 2 2 1 [2] [[0; 3; 0; 0]]
               emptyMem)
    = Some (Returned (-1),
            [(2%nat, Control); (3%nat, Control); (0%nat, Control)])
  ∧ outcome (goi (failingAt 6) 2 2 [1; 0; 0; 0] 2 2 1 [2] [[0; 3; 0; 0]]
               emptyMem)
    = Some (Returned (-1),
            [(2%nat, Control); (3%nat, Control); (0%nat, Control)])
  ∧ outcome (goi (plentiful (λ _ _, 7)) 2 2 [1; 0; 0; 0] 2 2 1 [2]
               [[0; 3; 0; 0]] emptyMem)
    = Some (Returned 0, []).
Proof. vm_compute. repeat split; reflexivity. Qed.

(** ** The end-to-end examples of the specification *)

Example blinker_flips :
  trace (goi (plentiful (λ _ _, 7)) 1 1 blinker 3 3 0 [] [] emptyMem)
  = Some [blinker; [0;1;0; 0;1;0; 0;1;0]]
  ∧ outcome (goi (plentiful (λ _ _, 7)) 1 1 blinker 3 3 0 [] [] emptyMem)
    = Some (Returned 0, []).
Proof. vm_compute. split; reflexivity. Qed.

Example lonely_cell_dies_quietly :
  trace (goi (plentiful (λ _ _, 7)) 1 1 [0;0;0; 0;1;0; 0;0;0] 3 3 0 [] []
           emptyMem)
  = Some [[0;0;0; 0;1;0; 0;0;0]; replicate 9 0]
  ∧ outcome (goi (plentiful (λ _ _, 7)) 1 1 [0;0;0; 0;1;0; 0;0;0] 3 3 0 [] []
               emptyMem)
    = Some (Returned 0, []).
Proof. vm_compute. split; reflexivity. Qed.

Example two_enemies_both_die :
  trace (goi (plentiful (λ _ _, 7)) 1 1 [1; 2] 1 2 0 [] [] emptyMem)
  = Some [[1; 2]; [0; 0]]
  ∧ outcome (goi (plentiful (λ _ _, 7)) 1 1 [1; 2] 1 2 0 [] [] emptyMem)
    = Some (Returned 2, []).
Proof. vm_compute. split; reflexivity. Qed.

(** The second of two workers cannot be created: the process exits with -1
    in the first generation, after the initial world has been observed. *)
Example worker_creation_failure_exits :
  trace (goi (unspawnable 1) 2 3 blinker 3 3 0 [] [] emptyMem)
  = Some [blinker]
  ∧ outcome (goi (unspawnable 1) 2 3 blinker 3 3 0 [] [] emptyMem)
    = Some (Exited (-1), []).
Proof. vm_compute. split; reflexivity. Qed.

(** No generation to run: the workers are never created and the join has
    no handle to wait for. *)
Example no_generation_no_workers :
  goi (plentiful (λ _ _, 7)) 1 0 blinker 3 3 0 [] [] emptyMem = None.
Proof. vm_compute. reflexivity. Qed.


(** * Further properties of the rule engine *)

(** X1. [getNextState] sets [diedDueToFighting] only for a cell that is
    currently occupied: whatever the world and the overlay, a result with the
    flag set comes from a cell whose value is not 0. *)
Theorem fighting_death_needs_live_cell world invaders nRows nCols row col v :
  getNextState world invaders nRows nCols row col = Some (v, true) →
  ∃ c, getValueAt world nRows nCols row col = Some c ∧ c ≠ DEAD_FACTION.
Proof.
  unfold getNextState. intros H.
  destruct (getValueAt world nRows nCols row col) as [c|]; [|done].
  exists c. split; [done|]. cbn [mbind option_bind] in H.
  destruct (landedOn invaders nRows nCols row col) as [[landed|]|]; [| |done];
    cbn [mbind option_bind] in H.
  - destruct (Z.eqb_spec c DEAD_FACTION); [done|done].
  - destruct (neighborCounts world nRows nCols row col c); [|done].
    cbn [mbind option_bind] in H.
    destruct (Z.eqb_spec c DEAD_FACTION); [|done].
    by destruct (birthScan _).
Qed.

Lemma fighting_death_needs_live_cell_witness :
  ∃ c, getValueAt [1; 2] 1 2 0 0 = Some c ∧ c ≠ DEAD_FACTION.
Proof.
  apply (fighting_death_needs_live_cell [1; 2] None 1 2 0 0 0). reflexivity.
Defined.

Lemma countWhere_bounds {A : Type} (p : A → bool) (l : list A) :
  0 ≤ countWhere p l ≤ Z.of_nat (length l).
Proof. induction l as [|x l IH]; simpl; [lia|]. destruct (p x); lia. Qed.

(** X2. For a cell of a grid of faction ids, every entry of the array
    [neighborCounts], after the adjustment for the cell itself, lies between
    0 and 8: the decrement never drives an entry below zero and no counter
    can overflow. *)
Theorem neighbour_counters_stay_small world nRows nCols row col :
  validGrid world nRows nCols →
  inGrid nRows nCols row col = true →
  ∃ counts,
    neighborCounts world nRows nCols row col (cellAt world nCols row col)
    = Some counts
    ∧ length counts = Z.to_nat MAX_FACTIONS
    ∧ Forall (λ c, 0 ≤ c ≤ 8) counts.
Proof.
  intros Hvalid Hin.
  destruct (neighborCounts_spec world nRows nCols row col Hvalid Hin)
    as (counts & E & Hlen & Hc).
  exists counts. split; [done|]. split; [done|].
  apply Forall_lookup. intros i c Hi.
  pose proof (lookup_lt_Some _ _ _ Hi) as Hlt. rewrite Hlen in Hlt.
  specialize (Hc (Z.of_nat i) ltac:(unfold MAX_FACTIONS in *; lia)).
  rewrite Nat2Z.id, Hi in Hc. injection Hc as ->.
  pose proof (countWhere_bounds
                (holdsFaction world nRows nCols row col (Z.of_nat i))
                neighbourOffsets) as Hb.
  unfold neighbourCount. simpl length in Hb. lia.
Qed.

Lemma neighbour_counters_stay_small_witness :
  ∃ counts,
    neighborCounts [1; 1; 1; 1; 1; 1; 1; 1; 1] 3 3 1 1
      (cellAt [1; 1; 1; 1; 1; 1; 1; 1; 1] 3 1 1) = Some counts
    ∧ length counts = Z.to_nat MAX_FACTIONS
    ∧ Forall (λ c, 0 ≤ c ≤ 8) counts.
Proof.
  apply (neighbour_counters_stay_small [1; 1; 1; 1; 1; 1; 1; 1; 1] 3 3 1 1);
    concrete.
Defined.

Lemma countWhere_pos {A : Type} (p : A → bool) (l : list A) :
  0 < countWhere p l ↔ ∃ x, x ∈ l ∧ p x = true.
Proof.
  induction l as [|x l IH]; simpl.
  - split; [lia|]. intros (y & Hy & _). by apply elem_of_nil in Hy.
  - pose proof (countWhere_bounds p l). split.
    + intros Hpos. destruct (p x) eqn:Hx.
      * exists x. split; [apply elem_of_cons; by left|done].
      * destruct (proj1 IH ltac:(lia)) as (y & Hy & Hpy).
        exists y. split; [apply elem_of_cons; by right|done].
    + intros (y & Hy & Hpy). apply elem_of_cons in Hy as [->|Hy].
      * rewrite Hpy. lia.
      * assert (0 < countWhere p l) by (apply IH; eauto).
        destruct (p x); lia.
Qed.

Lemma sumOver_nonneg (fs : list Z) (g : Z → Z) :
  (∀ f, f ∈ fs → 0 ≤ g f) → 0 ≤ sumOver fs g.
Proof.
  induction fs as [|f fs IH]; intros Hg; simpl; [lia|].
  assert (0 ≤ g f) by (apply Hg, elem_of_cons; by left).
  assert (0 ≤ sumOver fs g)
    by (apply IH; intros h Hh; apply Hg, elem_of_cons; by right).
  lia.
Qed.

Lemma sumOver_pos (fs : list Z) (g : Z → Z) :
  (∀ f, f ∈ fs → 0 ≤ g f) →
  0 < sumOver fs g ↔ ∃ f, f ∈ fs ∧ 0 < g f.
Proof.
  induction fs as [|f fs IH]; intros Hg; simpl.
  - split; [lia|]. intros (h & Hh & _). by apply elem_of_nil in Hh.
  - assert (Hf : 0 ≤ g f) by (apply Hg, elem_of_cons; by left).
    assert (Hrest : ∀ h, h ∈ fs → 0 ≤ g h)
      by (intros h Hh; apply Hg, elem_of_cons; by right).
    pose proof (sumOver_nonneg fs g Hrest). split.
    + intros Hpos. destruct (Z_lt_le_dec 0 (g f)) as [Hgf|Hgf].
      * exists f. split; [apply elem_of_cons; by left|done].
      * destruct (proj1 (IH Hrest) ltac:(lia)) as (h & Hh & Hgh).
        exists h. split; [apply elem_of_cons; by right|done].
    + intros (h & Hh & Hgh). apply elem_of_cons in Hh as [->|Hh]; [lia|].
      assert (0 < sumOver fs g) by (apply IH; eauto). lia.
Qed.

Lemma sumOver_all_zero (fs : list Z) (g : Z → Z) :
  (∀ f, f ∈ fs → g f = 0) → sumOver fs g = 0.
Proof.
  induction fs as [|f fs IH]; intros Hg; simpl; [done|].
  rewrite (Hg f) by (apply elem_of_cons; by left).
  rewrite IH; [done|]. intros h Hh. apply Hg, elem_of_cons. by right.
Qed.

Lemma elem_of_liveFactions (f : Z) : f ∈ liveFactions ↔ 1 ≤ f < MAX_FACTIONS.
Proof. unfold liveFactions, MAX_FACTIONS. rewrite elem_of_seqZ. lia. Qed.

(** The hostile count is positive exactly when one of the eight positions
    around the cell lies in the grid and holds a live faction other than
    [own]. *)
Lemma hostile_positive_iff world nRows nCols row col own :
  validGrid world nRows nCols →
  0 < hostileNeighbours world nRows nCols row col own
  ↔ ∃ d, d ∈ neighbourOffsets
         ∧ inGrid nRows nCols (row + d.1) (col + d.2) = true
         ∧ cellAt world nCols (row + d.1) (col + d.2) ≠ DEAD_FACTION
         ∧ cellAt world nCols (row + d.1) (col + d.2) ≠ own.
Proof.
  intros Hvalid. unfold hostileNeighbours.
  assert (Hnonneg : ∀ f, f ∈ liveFactions →
            0 ≤ (if f =? own then 0
                 else neighbourCount world nRows nCols row col f)).
  { intros f _. destruct (f =? own); [lia|].
    apply (countWhere_bounds _ neighbourOffsets). }
  rewrite (sumOver_pos _ _ Hnonneg). split.
  - intros (f & Hf & Hpos). apply elem_of_liveFactions in Hf.
    destruct (Z.eqb_spec f own) as [|Hne]; [lia|].
    apply countWhere_pos in Hpos as (d & Hd & Hholds).
    unfold holdsFaction in Hholds. apply andb_true_iff in Hholds as [Hin Hv].
    apply Z.eqb_eq in Hv. exists d. rewrite Hv.
    unfold DEAD_FACTION. repeat split; [done..|lia|done].
  - intros (d & Hd & Hin & Hlive & Hne).
    pose proof (validGrid_cellAt _ _ _ _ _ Hvalid Hin) as Hv.
    set (v := cellAt world nCols (row + d.1) (col + d.2)) in *.
    exists v. split; [apply elem_of_liveFactions; unfold DEAD_FACTION in *; lia|].
    destruct (Z.eqb_spec v own); [done|].
    apply countWhere_pos. exists d. split; [done|].
    unfold holdsFaction. fold v. by rewrite Hin, Z.eqb_refl.
Qed.

(** X3. A live cell of the grid without overlay dies by fighting exactly
    when one of the eight positions around it lies in the grid and holds a
    live faction other than its own: dead neighbours, neighbours of its own
    faction and positions off the grid never make a cell fight. *)
Theorem dies_fighting_iff_enemy_neighbour world invaders nRows nCols row col :
  validGrid world nRows nCols →
  inGrid nRows nCols row col = true →
  cellAt world nCols row col ≠ DEAD_FACTION →
  noOverlayAt invaders nRows nCols row col →
  (∃ v, getNextState world invaders nRows nCols row col = Some (v, true))
  ↔ ∃ d, d ∈ neighbourOffsets
         ∧ inGrid nRows nCols (row + d.1) (col + d.2) = true
         ∧ cellAt world nCols (row + d.1) (col + d.2) ≠ DEAD_FACTION
         ∧ cellAt world nCols (row + d.1) (col + d.2)
           ≠ cellAt world nCols row col.
Proof.
  intros Hvalid Hin Hlive Hno.
  rewrite <- (hostile_positive_iff world nRows nCols row col _ Hvalid).
  destruct (getNextState_by_counts world invaders nRows nCols row col)
    as (counts & Hc & E); [done..|].
  pose proof (validGrid_cellAt _ _ _ _ _ Hvalid Hin) as Hown.
  rewrite E. cbn zeta.
  destruct (Z.eqb_spec (cellAt world nCols row col) DEAD_FACTION); [done|].
  rewrite (hostileScan_spec counts _ Hc). cbn [mbind option_bind].
  fold (hostileNeighbours world nRows nCols row col
          (cellAt world nCols row col)).
  unfold willFight.
  destruct (Z.ltb_spec 0 (hostileNeighbours world nRows nCols row col
                            (cellAt world nCols row col))) as [Hpos|Hle].
  - split; [done|]. intros _. by eexists.
  - split; [|lia]. intros (v & Hv). rewrite (Hc _ Hown) in Hv.
    cbn [mbind option_bind] in Hv. by destruct (negb _).
Qed.

Lemma dies_fighting_iff_enemy_neighbour_witness :
  (∃ v, getNextState [1; 2; 0; 0] None 2 2 0 0 = Some (v, true))
  ↔ ∃ d, d ∈ neighbourOffsets
         ∧ inGrid 2 2 (0 + d.1) (0 + d.2) = true
         ∧ cellAt [1; 2; 0; 0] 2 (0 + d.1) (0 + d.2) ≠ DEAD_FACTION
         ∧ cellAt [1; 2; 0; 0] 2 (0 + d.1) (0 + d.2)
           ≠ cellAt [1; 2; 0; 0] 2 0 0.
Proof.
  apply (dies_fighting_iff_enemy_neighbour [1; 2; 0; 0] None 2 2 0 0);
    concrete.
Defined.

Lemma singleFaction_cellAt f world nCols r c :
  singleFaction f world →
  cellAt world nCols r c = DEAD_FACTION ∨ cellAt world nCols r c = f.
Proof.
  intros Hall. unfold cellAt.
  destruct (world !! _) as [v|] eqn:Hv; simpl; [|by left].
  by apply (Forall_lookup_1 _ _ _ _ Hall Hv).
Qed.

Lemma singleFaction_no_other f world nRows nCols row col g :
  singleFaction f world → g ≠ DEAD_FACTION → g ≠ f →
  neighbourCount world nRows nCols row col g = 0.
Proof.
  intros Hall Hg0 Hgf.
  pose proof (countWhere_bounds (holdsFaction world nRows nCols row col g)
                neighbourOffsets) as Hb.
  destruct (Z_lt_le_dec 0 (neighbourCount world nRows nCols row col g))
    as [Hpos|Hle]; [|unfold neighbourCount in *; lia].
  apply countWhere_pos in Hpos as (d & _ & Hholds).
  unfold holdsFaction in Hholds. apply andb_true_iff in Hholds as [_ Hv].
  apply Z.eqb_eq in Hv.
  destruct (singleFaction_cellAt f world nCols (row + d.1) (col + d.2) Hall);
    congruence.
Qed.

(** X4. In a world with a single faction [f] the engine is Conway's Game of
    Life: without an overlay on the cell, a dead cell becomes [f] exactly
    when it has three neighbours, a live cell stays exactly when it has two
    or three, and [diedDueToFighting] is never set. *)
Theorem single_faction_is_game_of_life
    world invaders nRows nCols row col f :
  validGrid world nRows nCols →
  1 ≤ f < MAX_FACTIONS →
  singleFaction f world →
  inGrid nRows nCols row col = true →
  noOverlayAt invaders nRows nCols row col →
  let n := neighbourCount world nRows nCols row col f in
  getNextState world invaders nRows nCols row col
  = Some (if cellAt world nCols row col =? DEAD_FACTION
          then (if n =? 3 then f else DEAD_FACTION)
          else (if (n =? 2) || (n =? 3) then f else DEAD_FACTION),
          false).
Proof.
  intros Hvalid Hf Hall Hin Hno n.
  destruct (getNextState_by_counts world invaders nRows nCols row col)
    as (counts & Hc & E); [done..|].
  rewrite E. cbn zeta.
  destruct (Z.eqb_spec (cellAt world nCols row col) DEAD_FACTION) as [Hd|Hl].
  - destruct (birthScan_spec counts _ Hc) as (r & -> & Hr).
    cbn [mbind option_bind]. do 2 f_equal. fold n in Hr.
    destruct (Z.eqb_spec n 3) as [H3|H3].
    + destruct Hr as [[_ Hnone]|(Hr & Hr3 & _)]; [by destruct (Hnone f Hf)|].
      destruct (Z.eq_dec r f) as [|Hne]; [done|].
      rewrite (singleFaction_no_other f) in Hr3;
        [lia|done|unfold DEAD_FACTION; lia|done].
    + destruct Hr as [[-> _]|(Hr & Hr3 & _)]; [done|].
      destruct (Z.eq_dec r f) as [->|Hne]; [done|].
      rewrite (singleFaction_no_other f) in Hr3;
        [lia|done|unfold DEAD_FACTION; lia|done].
  - destruct (singleFaction_cellAt f world nCols row col Hall) as [|Hown];
      [done|]. rewrite Hown.
    rewrite (hostileScan_spec counts _ Hc).
    rewrite sumOver_all_zero.
    + cbn [mbind option_bind willFight Z.ltb Z.compare].
      rewrite (Hc f) by lia. cbn [mbind option_bind]. fold n.
      unfold isSurvivable. by destruct ((n =? 2) || (n =? 3)).
    + intros g Hg. apply elem_of_liveFactions in Hg.
      destruct (Z.eqb_spec g f); [done|].
      apply (singleFaction_no_other f); [done|unfold DEAD_FACTION; lia|done].
Qed.

Lemma single_faction_is_game_of_life_witness :
  let n := neighbourCount [0; 0; 0; 1; 1; 1; 0; 0; 0] 3 3 0 1 1 in
  getNextState [0; 0; 0; 1; 1; 1; 0; 0; 0] None 3 3 0 1
  = Some (if cellAt [0; 0; 0; 1; 1; 1; 0; 0; 0] 3 0 1 =? DEAD_FACTION
          then (if n =? 3 then 1 else DEAD_FACTION)
          else (if (n =? 2) || (n =? 3) then 1 else DEAD_FACTION),
          false).
Proof.
  apply (single_faction_is_game_of_life [0; 0; 0; 1; 1; 1; 0; 0; 0] None
           3 3 0 1 1); concrete.
  unfold singleFaction. repeat constructor; by (left + right).
Defined.

Lemma countWhere_ext {A : Type} (p q : A → bool) (l : list A) :
  (∀ x, x ∈ l → p x = q x) → countWhere p l = countWhere q l.
Proof.
  induction l as [|x l IH]; intros Hpq; simpl; [done|].
  rewrite (Hpq x) by (apply elem_of_cons; by left).
  rewrite IH; [done|]. intros y Hy. apply Hpq, elem_of_cons. by right.
Qed.

Lemma neighbourOffsets_window (d : Z * Z) :
  d ∈ neighbourOffsets → d ∈ windowOffsets.
Proof.
  unfold neighbourOffsets, windowOffsets. rewrite !elem_of_cons.
  intros H. repeat destruct H as [->|H]; try by apply elem_of_nil in H.
  all: tauto.
Qed.

(** X5. [getNextState] reads the world only at the cell and at the positions
    around it: two worlds of faction ids that agree on the positions of the
    3 x 3 window that lie in the grid give the same result, whatever they
    hold elsewhere. *)
Theorem getNextState_reads_the_window_only
    world1 world2 invaders nRows nCols row col :
  validGrid world1 nRows nCols →
  validGrid world2 nRows nCols →
  inGrid nRows nCols row col = true →
  (∀ d, d ∈ windowOffsets →
        inGrid nRows nCols (row + d.1) (col + d.2) = true →
        cellAt world1 nCols (row + d.1) (col + d.2)
        = cellAt world2 nCols (row + d.1) (col + d.2)) →
  getNextState world1 invaders nRows nCols row col
  = getNextState world2 invaders nRows nCols row col.
Proof.
  intros Hv1 Hv2 Hin Hagree.
  assert (Hown : cellAt world1 nCols row col = cellAt world2 nCols row col).
  { specialize (Hagree (0, 0)). cbn [fst snd] in Hagree.
    rewrite !Z.add_0_r in Hagree. apply Hagree; [|done].
    unfold windowOffsets. rewrite !elem_of_cons. tauto. }
  assert (Hcount : ∀ f, neighbourCount world1 nRows nCols row col f
                        = neighbourCount world2 nRows nCols row col f).
  { intros f. apply countWhere_ext. intros d Hd. unfold holdsFaction.
    destruct (inGrid nRows nCols (row + d.1) (col + d.2)) eqn:Hd'; [|done].
    by rewrite (Hagree d (neighbourOffsets_window d Hd) Hd'). }
  destruct (neighborCounts_spec world1 nRows nCols row col Hv1 Hin)
    as (c1 & E1 & L1 & S1).
  destruct (neighborCounts_spec world2 nRows nCols row col Hv2 Hin)
    as (c2 & E2 & L2 & S2).
  assert (c1 = c2) as ->.
  { apply list_eq. intros i.
    destruct (decide (i < Z.to_nat MAX_FACTIONS)%nat) as [Hlt|Hge].
    - specialize (S1 (Z.of_nat i) ltac:(unfold MAX_FACTIONS in *; lia)).
      specialize (S2 (Z.of_nat i) ltac:(unfold MAX_FACTIONS in *; lia)).
      rewrite Nat2Z.id in S1, S2. by rewrite S1, S2, Hcount.
    - by rewrite !lookup_ge_None_2 by lia. }
  unfold getNextState.
  rewrite (getValueAt_inGrid world1), (getValueAt_inGrid world2)
    by eauto using validGrid_sized.
  cbn [mbind option_bind]. rewrite <- Hown.
  destruct (landedOn invaders nRows nCols row col) as [[landed|]|]; [done| |done].
  cbn [mbind option_bind]. rewrite <- Hown in E2. by rewrite E1, E2.
Qed.

Lemma getNextState_reads_the_window_only_witness :
  getNextState [1; 1; 0; 0; 0; 0; 0; 0; 5] None 3 3 0 0
  = getNextState [1; 1; 0; 0; 0; 0; 0; 2; 2] None 3 3 0 0.
Proof.
  apply (getNextState_reads_the_window_only
           [1; 1; 0; 0; 0; 0; 0; 0; 5] [1; 1; 0; 0; 0; 0; 0; 2; 2]
           None 3 3 0 0); concrete.
  intros d Hd. unfold windowOffsets in Hd. rewrite !elem_of_cons in Hd.
  repeat destruct Hd as [->|Hd]; try by apply elem_of_nil in Hd.
  all: vm_compute; congruence.
Defined.

Lemma countAt_length world nRows nCols row col dy dx counts counts' :
  countAt world nRows nCols row col dy dx counts = Some counts' →
  length counts' = length counts.
Proof.
  unfold countAt. destruct (getValueAt _ _ _ _ _) as [v|]; [|done].
  cbn [mbind option_bind]. destruct (DEAD_FACTION <=? v); [|by intros [= <-]].
  unfold incrCount. destruct (v <? 0); [done|].
  destruct (counts !! _); [|done]. cbn [mbind option_bind].
  intros [= <-]. by rewrite length_insert.
Qed.

Lemma tallyOver_overrun world nRows nCols row col ds counts :
  sizedGrid world nRows nCols →
  length counts = Z.to_nat MAX_FACTIONS →
  (∃ d, d ∈ ds ∧ inGrid nRows nCols (row + d.1) (col + d.2) = true
        ∧ MAX_FACTIONS ≤ cellAt world nCols (row + d.1) (col + d.2)) →
  tallyOver world nRows nCols row col ds counts = None.
Proof.
  intros Hsized. revert counts.
  induction ds as [|d ds IH]; intros counts Hlen (bad & Hbad & Hin & Hbig).
  - by apply elem_of_nil in Hbad.
  - cbn [tallyOver].
    destruct (countAt world nRows nCols row col d.1 d.2 counts)
      as [counts'|] eqn:E; [|done].
    cbn [mbind option_bind].
    apply elem_of_cons in Hbad as [->|Hbad].
    + exfalso. unfold countAt in E.
      rewrite (getValueAt_inGrid world) in E by done.
      cbn [mbind option_bind] in E. unfold DEAD_FACTION, MAX_FACTIONS in *.
      destruct (Z.leb_spec 0 (cellAt world nCols (row + d.1) (col + d.2)));
        [|lia].
      unfold incrCount in E.
      destruct (Z.ltb_spec (cellAt world nCols (row + d.1) (col + d.2)) 0);
        [lia|].
      rewrite lookup_ge_None_2 in E by lia. done.
    + apply IH; [|eauto]. by rewrite (countAt_length _ _ _ _ _ _ _ _ _ E).
Qed.

(** X6. Outside the invariant of the data model the engine overruns its
    array: for a cell of the grid without overlay, [getNextState] has no
    defined result when the cell or an existing neighbour holds a faction id
    of [MAX_FACTIONS] or more, or when the cell itself holds a negative
    id. *)
Theorem faction_out_of_range_is_undefined
    world invaders nRows nCols row col :
  sizedGrid world nRows nCols →
  inGrid nRows nCols row col = true →
  noOverlayAt invaders nRows nCols row col →
  cellAt world nCols row col < 0
  ∨ (∃ d, d ∈ windowOffsets
          ∧ inGrid nRows nCols (row + d.1) (col + d.2) = true
          ∧ MAX_FACTIONS ≤ cellAt world nCols (row + d.1) (col + d.2)) →
  getNextState world invaders nRows nCols row col = None.
Proof.
  intros Hsized Hin Hno Hbad. unfold getNextState.
  rewrite (getValueAt_inGrid world) by done. cbn [mbind option_bind].
  rewrite landedOn_none by done. cbn [mbind option_bind].
  assert (E : neighborCounts world nRows nCols row col
                (cellAt world nCols row col) = None); [|by rewrite E].
  unfold neighborCounts. rewrite window_tally.
  destruct Hbad as [Hneg|Hbig].
  - destruct (tallyOver _ _ _ _ _ _ _); [|done]. cbn [mbind option_bind].
    unfold decrCount. by destruct (Z.ltb_spec (cellAt world nCols row col) 0);
      [|lia].
  - rewrite tallyOver_overrun; [done..|by rewrite length_replicate|done].
Qed.

Lemma faction_out_of_range_is_undefined_witness :
  getNextState [0; 0; 0; 12] None 2 2 0 0 = None.
Proof.
  apply (faction_out_of_range_is_undefined [0; 0; 0; 12] None 2 2 0 0);
    concrete.
  right. exists (1, 1). unfold windowOffsets.
  repeat split; [rewrite !elem_of_cons; tauto|vm_compute; congruence].
Defined.


(** * Further properties of the workers *)

(** On grids of faction ids the engine has a result, a faction id again. *)
Lemma getNextState_defined world invaders nRows nCols row col :
  validGrid world nRows nCols →
  validOverlay invaders nRows nCols →
  inGrid nRows nCols row col = true →
  ∃ faction died,
    getNextState world invaders nRows nCols row col = Some (faction, died)
    ∧ 0 ≤ faction < MAX_FACTIONS.
Proof.
  intros Hvalid Hov Hin.
  pose proof (validGrid_cellAt _ _ _ _ _ Hvalid Hin) as Hown.
  destruct invaders as [inv|].
  - simpl in Hov.
    destruct (Z.eq_dec (cellAt inv nCols row col) DEAD_FACTION) as [Hz|Hnz].
    + destruct (getNextState_by_counts world (Some inv) nRows nCols row col)
        as (counts & Hc & E); [done..| |].
      { simpl. rewrite (getValueAt_inGrid inv) by eauto using validGrid_sized.
        by rewrite Hz. }
      rewrite E. cbn zeta.
      destruct (Z.eqb_spec (cellAt world nCols row col) DEAD_FACTION).
      * destruct (birthScan_spec counts _ Hc) as (r & -> & Hr).
        exists r, false. split; [done|].
        unfold DEAD_FACTION, MAX_FACTIONS in *.
        destruct Hr as [[-> _]|[? _]]; lia.
      * rewrite (hostileScan_spec counts _ Hc). cbn [mbind option_bind].
        destruct (willFight _);
          [exists DEAD_FACTION, true; split; [done|];
           unfold DEAD_FACTION, MAX_FACTIONS; lia|].
        rewrite (Hc _ Hown). cbn [mbind option_bind].
        destruct (negb _);
          [exists DEAD_FACTION, false; split; [done|];
           unfold DEAD_FACTION, MAX_FACTIONS; lia|].
        by eexists _, false.
    + rewrite getNextState_landed by eauto using validGrid_sized.
      eexists _, _. split; [done|]. by apply (validGrid_cellAt inv nRows).
  - destruct (getNextState_by_counts world None nRows nCols row col)
      as (counts & Hc & E); [done..|].
    rewrite E. cbn zeta.
    destruct (Z.eqb_spec (cellAt world nCols row col) DEAD_FACTION).
    + destruct (birthScan_spec counts _ Hc) as (r & -> & Hr).
      exists r, false. split; [done|].
      unfold DEAD_FACTION, MAX_FACTIONS in *.
      destruct Hr as [[-> _]|[? _]]; lia.
    + rewrite (hostileScan_spec counts _ Hc). cbn [mbind option_bind].
      destruct (willFight _);
        [exists DEAD_FACTION, true; split; [done|];
         unfold DEAD_FACTION, MAX_FACTIONS; lia|].
      rewrite (Hc _ Hown). cbn [mbind option_bind].
      destruct (negb _);
        [exists DEAD_FACTION, false; split; [done|];
         unfold DEAD_FACTION, MAX_FACTIONS; lia|].
      by eexists _, false.
Qed.

Section Workers.
Context (world : list Z) (inv : option (list Z)) (nRows nCols : Z).
Hypothesis Hworld : validGrid world nRows nCols.
Hypothesis Hinv : validOverlay inv nRows nCols.

Let total := nRows * nCols.

Lemma nextCell_index (i : Z) :
  0 ≤ i < total →
  nextCell world inv nRows nCols i
  = getNextState world inv nRows nCols (i / nCols) (i mod nCols).
Proof.
  intros Hi. destruct Hworld as (HnRows & HnCols & _).
  destruct (index_row_col nRows nCols HnRows HnCols i Hi) as [Hin Hidx].
  destruct (cell_row_col nRows nCols _ _ Hin) as [Er Ec].
  rewrite Hidx in Er, Ec. unfold nextCell. by rewrite Er, Ec.
Qed.

Lemma nextCell_defined (i : Z) :
  0 ≤ i < total →
  nextCell world inv nRows nCols i
  = Some (nextFaction world inv nRows nCols i,
          diesFighting world inv nRows nCols i)
  ∧ 0 ≤ nextFaction world inv nRows nCols i < MAX_FACTIONS.
Proof.
  intros Hi. destruct Hworld as (HnRows & HnCols & _).
  destruct (index_row_col nRows nCols HnRows HnCols i Hi) as [Hin _].
  destruct (getNextState_defined world inv nRows nCols _ _ Hworld Hinv Hin)
    as (v & d & E & Hv).
  unfold nextFaction, diesFighting. rewrite nextCell_index, E by done. done.
Qed.

(** What a worker does for one cell of the grid. *)
Lemma workerCell_step (i : Z) (next : list Z) (toll : Z) :
  0 ≤ i < total →
  length next = Z.to_nat total →
  workerCell world inv nRows nCols i (next, toll)
  = let next' := <[Z.to_nat i := nextFaction world inv nRows nCols i]> next in
    if diesFighting world inv nRows nCols i
    then toll' ← incrToll toll; Some (next', toll')
    else Some (next', toll).
Proof.
  intros Hi Hlen. pose proof Hworld as (HnRows & HnCols & _).
  destruct (index_row_col nRows nCols HnRows HnCols i Hi) as [Hin Hidx].
  destruct (nextCell_defined i Hi) as [E _].
  rewrite nextCell_index in E by done.
  pose proof (workerCell_at world inv nRows nCols _ _ next toll _ _
                ltac:(by repeat split) Hin E) as Ew.
  by rewrite Hidx in Ew.
Qed.

Lemma fightingDeaths_empty (a : Z) :
  fightingDeaths world inv nRows nCols a a = 0.
Proof. unfold fightingDeaths. by rewrite Z.sub_diag. Qed.

Lemma countWhere_app {A : Type} (p : A → bool) (l1 l2 : list A) :
  countWhere p (l1 ++ l2) = countWhere p l1 + countWhere p l2.
Proof. induction l1 as [|x l1 IH]; simpl; lia. Qed.

Lemma fightingDeaths_split (a j b : Z) :
  a ≤ j ≤ b →
  fightingDeaths world inv nRows nCols a b
  = fightingDeaths world inv nRows nCols a j
    + fightingDeaths world inv nRows nCols j b.
Proof.
  intros Hj. unfold fightingDeaths.
  replace (b - a) with ((j - a) + (b - j)) by lia.
  rewrite seqZ_app, countWhere_app by lia.
  by replace (a + (j - a)) with j by lia.
Qed.

Lemma fightingDeaths_one (j : Z) :
  fightingDeaths world inv nRows nCols j (j + 1)
  = if diesFighting world inv nRows nCols j then 1 else 0.
Proof.
  unfold fightingDeaths. replace (j + 1 - j) with 1 by lia.
  rewrite seqZ_cons, seqZ_nil by lia. cbn [countWhere]. lia.
Qed.

Lemma fightingDeaths_bounds (a b : Z) :
  a ≤ b → 0 ≤ fightingDeaths world inv nRows nCols a b ≤ b - a.
Proof.
  intros Hab. unfold fightingDeaths.
  pose proof (countWhere_bounds (diesFighting world inv nRows nCols)
                (seqZ a (b - a))) as Hb.
  rewrite length_seqZ in Hb. lia.
Qed.
End Workers.

Section Generation.
Context (world : list Z) (inv : option (list Z)) (nRows nCols : Z).
Hypothesis Hworld : validGrid world nRows nCols.
Hypothesis Hinv : validOverlay inv nRows nCols.

Let total := nRows * nCols.
Let deaths := fightingDeaths world inv nRows nCols.

(** One worker on its partition, from any buffer and any toll. *)
Lemma subroutineStep_run (a b : Z) (next : list Z) (toll : Z) :
  0 ≤ a ≤ b → b ≤ total →
  length next = Z.to_nat total →
  toll + deaths a b ≤ INT_MAX →
  ∃ st',
    subroutineStep world inv nRows nCols (Partition a b) (next, toll)
    = Some st'
    ∧ workerInv world inv nRows nCols a next toll b st'.
Proof.
  intros Hab Hb Hlen Hmax. unfold subroutineStep. cbn [startIdx endIdx].
  apply (forRange_invariant (workerInv world inv nRows nCols a next toll));
    [lia| |].
  - split; [|split; [done|]]; cbn [fst snd].
    + rewrite fightingDeaths_empty. lia.
    + intros k Hk. by rewrite decide_False by lia.
  - intros j [n t] Hj (Ht & Hn & Hcells). cbn [fst snd] in Ht, Hn, Hcells.
    rewrite (workerCell_step world inv nRows nCols Hworld Hinv)
      by (fold total; lia).
    cbn zeta.
    pose proof (fightingDeaths_split world inv nRows nCols a j b ltac:(lia))
      as Hs1.
    pose proof (fightingDeaths_split world inv nRows nCols j (j + 1) b
                  ltac:(lia)) as Hs2.
    pose proof (fightingDeaths_split world inv nRows nCols a j (j + 1)
                  ltac:(lia)) as Hs3.
    pose proof (fightingDeaths_bounds world inv nRows nCols (j + 1) b
                  ltac:(lia)) as Hb1.
    pose proof (fightingDeaths_bounds world inv nRows nCols a j ltac:(lia))
      as Hb2.
    pose proof (fightingDeaths_one world inv nRows nCols j) as Hone.
    fold deaths in Hs1, Hs2, Hs3, Hb1, Hb2, Hone, Ht.
    assert (Hcells' : ∀ k, 0 ≤ k →
              <[Z.to_nat j := nextFaction world inv nRows nCols j]> n
                !! Z.to_nat k
              = if decide (a ≤ k < j + 1)
                then Some (nextFaction world inv nRows nCols k)
                else next !! Z.to_nat k).
    { intros k Hk. destruct (Z.eq_dec k j) as [->|Hne].
      - rewrite list_lookup_insert_eq by (rewrite Hn, Hlen; lia).
        by rewrite decide_True by lia.
      - rewrite list_lookup_insert_ne by lia. rewrite Hcells by done.
        destruct (decide (a ≤ k < j)).
        + by rewrite decide_True by lia.
        + by rewrite decide_False by lia. }
    destruct (diesFighting world inv nRows nCols j).
    + rewrite incrToll_ok by lia. cbn [mbind option_bind].
      eexists. split; [done|].
      split; [|split]; cbn [fst snd];
        [fold deaths; lia|by rewrite length_insert|done].
    + eexists. split; [done|].
      split; [|split]; cbn [fst snd];
        [fold deaths; lia|by rewrite length_insert|done].
Qed.

(** X7. A worker touches its own partition and nothing else: from any next
    buffer of the size of the grid it writes, at every index of
    [startIdx, endIdx), the next faction of that cell, leaves every other
    cell of the buffer as it was, and adds to the death toll the number of
    fighting deaths among its cells. *)
Theorem worker_writes_its_partition_only (a b : Z) (next : list Z) (toll : Z) :
  0 ≤ a ≤ b → b ≤ nRows * nCols →
  length next = Z.to_nat (nRows * nCols) →
  toll + fightingDeaths world inv nRows nCols a b ≤ INT_MAX →
  ∃ next',
    subroutineStep world inv nRows nCols (Partition a b) (next, toll)
    = Some (next', toll + fightingDeaths world inv nRows nCols a b)
    ∧ length next' = length next
    ∧ (∀ k, a ≤ k < b →
         next' !! Z.to_nat k = Some (nextFaction world inv nRows nCols k))
    ∧ (∀ k, 0 ≤ k → ¬ (a ≤ k < b) →
         next' !! Z.to_nat k = next !! Z.to_nat k).
Proof.
  intros Hab Hb Hlen Hmax.
  destruct (subroutineStep_run a b next toll Hab Hb Hlen Hmax)
    as ([next' toll'] & E & Ht & Hn & Hcells).
  cbn [fst snd] in Ht, Hn, Hcells. subst toll'.
  exists next'. split; [done|]. split; [done|]. split.
  - intros k Hk. rewrite Hcells by lia. by rewrite decide_True.
  - intros k Hk Hout. rewrite Hcells by done. by rewrite decide_False.
Qed.

Lemma doneBelow_step (a b toll : Z) (st : list Z * Z) :
  0 ≤ a ≤ b → b ≤ total →
  toll + deaths 0 total ≤ INT_MAX →
  doneBelow world inv nRows nCols toll a st →
  ∃ st',
    subroutineStep world inv nRows nCols (Partition a b) st = Some st'
    ∧ doneBelow world inv nRows nCols toll b st'.
Proof.
  intros Hab Hb Hmax (Ht & Hn & Hcells). destruct st as [n t].
  cbn [fst snd] in Ht, Hn, Hcells.
  pose proof (fightingDeaths_split world inv nRows nCols 0 a b ltac:(lia))
    as Hs1.
  pose proof (fightingDeaths_split world inv nRows nCols 0 b total
                ltac:(lia)) as Hs2.
  pose proof (fightingDeaths_bounds world inv nRows nCols b total
                ltac:(lia)) as Hb1.
  fold deaths in Hs1, Hs2, Hb1, Ht.
  destruct (subroutineStep_run a b n t Hab Hb Hn ltac:(lia))
    as ([n' t'] & E & Ht' & Hn' & Hcells').
  cbn [fst snd] in Ht', Hn', Hcells'.
  exists (n', t'). split; [done|].
  split; [|split]; cbn [fst snd]; [fold deaths in Ht' |- *; lia|congruence|].
  intros k Hk. rewrite Hcells' by lia.
  destruct (decide (a ≤ k < b)); [done|]. apply Hcells. lia.
Qed.

Lemma firstWorkers_run (n : nat) (index threadSize toll : Z)
    (st : list Z * Z) :
  0 ≤ index → 0 ≤ threadSize →
  index + Z.of_nat n * threadSize ≤ total →
  toll + deaths 0 total ≤ INT_MAX →
  doneBelow world inv nRows nCols toll index st →
  ∃ st',
    runWorkers world inv nRows nCols
      (firstWorkers n index threadSize total).1 st = Some st'
    ∧ (firstWorkers n index threadSize total).2
      = index + Z.of_nat n * threadSize
    ∧ doneBelow world inv nRows nCols toll
        (index + Z.of_nat n * threadSize) st'.
Proof.
  revert index st. induction n as [|n IH]; intros index st Hi Hs Hfit Hmax Hst.
  - exists st. simpl. rewrite Z.add_0_r. done.
  - cbn [firstWorkers].
    destruct (firstWorkers n (index + threadSize) threadSize total)
      as [items index'] eqn:Hfw.
    cbn [fst snd runWorkers]. rewrite Z.min_l by lia.
    destruct (doneBelow_step index (index + threadSize) toll st)
      as (st1 & E1 & H1); [lia..|done|done|].
    rewrite E1. cbn [mbind option_bind].
    destruct (IH (index + threadSize) st1) as (st2 & E2 & Hidx & H2);
      [lia..|done|done|].
    rewrite Hfw in E2, Hidx. simpl in E2, Hidx.
    exists st2. split; [done|]. split; [lia|].
    by replace (index + Z.of_nat (S n) * threadSize)
      with (index + threadSize + Z.of_nat n * threadSize) by lia.
Qed.

(** All workers of a generation, for any number of threads. *)
Lemma runWorkers_run (nThreads : Z) (next : list Z) (toll : Z) :
  1 ≤ nThreads →
  length next = Z.to_nat total →
  toll + deaths 0 total ≤ INT_MAX →
  runWorkers world inv nRows nCols (makePartitions nThreads total) (next, toll)
  = Some (nextWorld world inv nRows nCols, toll + deaths 0 total).
Proof.
  intros Hn Hlen Hmax. pose proof Hworld as (HnRows & HnCols & _).
  assert (Htot : 0 ≤ total) by (unfold total; nia).
  destruct (threadSize_bounds nThreads total) as (Hq & Hsplit & Hrem);
    [done..|].
  unfold makePartitions.
  destruct (firstWorkers_run (Z.to_nat (nThreads - 1)) 0
              (total ÷ nThreads) toll (next, toll))
    as (st1 & E1 & Hidx & H1);
    [lia|done|rewrite Z2Nat.id by lia; nia|done| |].
  { split; [|split; [done|]]; cbn [fst snd].
    - unfold deaths. rewrite fightingDeaths_empty. lia.
    - intros k Hk. lia. }
  destruct (firstWorkers _ _ _ _) as [items index]. simpl in E1, Hidx.
  rewrite runWorkers_app, E1. cbn [mbind option_bind runWorkers].
  rewrite Z2Nat.id in Hidx, H1 by lia.
  destruct (doneBelow_step index total toll st1)
    as (st2 & E2 & H2); [nia|lia|done|by rewrite Hidx|].
  rewrite E2. cbn [mbind option_bind].
  destruct st2 as [next2 toll2]. destruct H2 as (Ht & Hl & Hz).
  cbn [fst snd] in Ht, Hl, Hz. subst toll2. f_equal. f_equal.
  apply list_eq. intros k. unfold nextWorld. fold total.
  destruct (decide (k < Z.to_nat total)%nat) as [Hlt|Hge].
  - rewrite list_lookup_fmap, lookup_seqZ_lt by lia. cbn [fmap option_fmap option_map].
    specialize (Hz (Z.of_nat k) ltac:(lia)). by rewrite Nat2Z.id in Hz.
  - rewrite !lookup_ge_None_2; [done|rewrite length_fmap, length_seqZ; lia|lia].
Qed.
End Generation.

Lemma worker_writes_its_partition_only_witness :
  ∃ next',
    subroutineStep [1; 2; 0; 0] None 2 2 (Partition 1 3) ([7; 7; 7; 7], 0)
    = Some (next', 0 + fightingDeaths [1; 2; 0; 0] None 2 2 1 3)
    ∧ length next' = length [7; 7; 7; 7]
    ∧ (∀ k, 1 ≤ k < 3 →
         next' !! Z.to_nat k = Some (nextFaction [1; 2; 0; 0] None 2 2 k))
    ∧ (∀ k, 0 ≤ k → ¬ (1 ≤ k < 3) →
         next' !! Z.to_nat k = [7; 7; 7; 7] !! Z.to_nat k).
Proof.
  apply (worker_writes_its_partition_only [1; 2; 0; 0] None 2 2);
    concrete; vm_compute; congruence.
Defined.

Lemma nextWorld_validGrid world inv nRows nCols :
  validGrid world nRows nCols →
  validOverlay inv nRows nCols →
  validGrid (nextWorld world inv nRows nCols) nRows nCols.
Proof.
  intros Hworld Hinv. pose proof Hworld as (HnRows & HnCols & _).
  repeat split; [done..| |].
  - unfold nextWorld. by rewrite length_fmap, length_seqZ.
  - unfold nextWorld. apply Forall_fmap, Forall_seqZ. intros i Hi.
    by apply (nextCell_defined world inv nRows nCols Hworld Hinv i).
Qed.

(** X8. The result of a generation does not depend on the number of threads
    nor on what the fresh next buffer held: for every thread count the
    workers together produce the world that a single thread produces, cell
    [i] holding the next faction of cell [i], and add the same number of
    fighting deaths to the toll. *)
Theorem generation_independent_of_thread_count
    world inv nRows nCols nThreads next toll :
  validGrid world nRows nCols →
  validOverlay inv nRows nCols →
  1 ≤ nThreads →
  length next = Z.to_nat (nRows * nCols) →
  toll + fightingDeaths world inv nRows nCols 0 (nRows * nCols) ≤ INT_MAX →
  runWorkers world inv nRows nCols (makePartitions nThreads (nRows * nCols))
    (next, toll)
  = Some (nextWorld world inv nRows nCols,
          toll + fightingDeaths world inv nRows nCols 0 (nRows * nCols))
  ∧ runWorkers world inv nRows nCols (makePartitions nThreads (nRows * nCols))
      (next, toll)
    = runWorkers world inv nRows nCols (makePartitions 1 (nRows * nCols))
        (replicate (Z.to_nat (nRows * nCols)) 0, toll).
Proof.
  intros Hworld Hinv Hn Hlen Hmax.
  rewrite (runWorkers_run world inv nRows nCols Hworld Hinv nThreads next toll)
    by done.
  split; [done|].
  by rewrite (runWorkers_run world inv nRows nCols Hworld Hinv 1)
    by (done || apply length_replicate).
Qed.

Lemma generation_independent_of_thread_count_witness :
  runWorkers [1; 2; 0; 0; 3; 3] None 3 2 (makePartitions 4 (3 * 2))
    ([7; 7; 7; 7; 7; 7], 5)
  = Some (nextWorld [1; 2; 0; 0; 3; 3] None 3 2,
          5 + fightingDeaths [1; 2; 0; 0; 3; 3] None 3 2 0 (3 * 2))
  ∧ runWorkers [1; 2; 0; 0; 3; 3] None 3 2 (makePartitions 4 (3 * 2))
      ([7; 7; 7; 7; 7; 7], 5)
    = runWorkers [1; 2; 0; 0; 3; 3] None 3 2 (makePartitions 1 (3 * 2))
        (replicate (Z.to_nat (3 * 2)) 0, 5).
Proof.
  apply (generation_independent_of_thread_count [1; 2; 0; 0; 3; 3] None 3 2 4);
    concrete; vm_compute; congruence.
Defined.

(** X9. A generation keeps the invariant of the data model and moves the
    toll by at most one per cell: from a world and overlay of faction ids the
    workers leave a next buffer that is again a grid of faction ids in
    [0, K), whatever the buffer held before, and a toll between the old one
    and the old one plus the number of cells. *)
Theorem generation_keeps_the_world_valid
    world inv nRows nCols nThreads next toll :
  validGrid world nRows nCols →
  validOverlay inv nRows nCols →
  1 ≤ nThreads →
  length next = Z.to_nat (nRows * nCols) →
  toll + nRows * nCols ≤ INT_MAX →
  ∃ next' toll',
    runWorkers world inv nRows nCols (makePartitions nThreads (nRows * nCols))
      (next, toll) = Some (next', toll')
    ∧ validGrid next' nRows nCols
    ∧ toll ≤ toll' ≤ toll + nRows * nCols.
Proof.
  intros Hworld Hinv Hn Hlen Hmax. pose proof Hworld as (HnRows & HnCols & _).
  pose proof (fightingDeaths_bounds world inv nRows nCols 0 (nRows * nCols)
                ltac:(nia)) as Hb.
  eexists _, _. split.
  - apply (runWorkers_run world inv nRows nCols Hworld Hinv); [done..|lia].
  - split; [by apply nextWorld_validGrid|lia].
Qed.

Lemma generation_keeps_the_world_valid_witness :
  ∃ next' toll',
    runWorkers [1; 2; 0; 0; 3; 3] (Some [0; 0; 9; 0; 0; 0]) 3 2
      (makePartitions 2 (3 * 2)) ([7; 70; -7; 7; 7; 7], 5) = Some (next', toll')
    ∧ validGrid next' 3 2
    ∧ 5 ≤ toll' ≤ 5 + 3 * 2.
Proof.
  apply (generation_keeps_the_world_valid [1; 2; 0; 0; 3; 3]
           (Some [0; 0; 9; 0; 0; 0]) 3 2 2); concrete.
Defined.


(** * Further properties of the coordinator *)


Section Run.
Context (junk : nat → nat → Z) (nThreads nRows nCols nInvasions : Z).
Context (invasionTimes : list Z) (invasionPlans : list (list Z)).
Hypothesis Hthreads : 1 ≤ nThreads.
Hypothesis HnRows : 0 ≤ nRows.
Hypothesis HnCols : 0 ≤ nCols.
Hypothesis Hplans : Forall (λ plan, validGrid plan nRows nCols) invasionPlans.

Let e := plentiful junk.
Let total := nRows * nCols.
Let parts := makePartitions nThreads total.







End Run.



Lemma goi_releases_grid_buffers_witness :
  ∃ m,
    goi (failingAt 6) 2 2 [1; 0; 0; 0] 2 2 1 [2] [[0; 3; 0; 0]] emptyMem
    = Some (Returned (-1), m)
    ∧ noGridLive m.
Proof.
  eexists. split; [vm_compute; reflexivity|].
  apply (goi_releases_grid_buffers (failingAt 6) 2 2 [1; 0; 0; 0] 2 2 1 [2]
           [[0; 3; 0; 0]] (Returned (-1))).
  vm_compute. reflexivity.
Defined.

Lemma world_copy_failure_leaks_witness :
  ∃ m,
    goi (failingAt 1) 4 10 [1; 2; 3; 4; 5; 6] 2 3 0 [] [] emptyMem
    = Some (Returned (-1), m)
    ∧ heap m !! 0%nat = Some Control.
Proof.
  apply (world_copy_failure_leaks (failingAt 1) 4 10 [1; 2; 3; 4; 5; 6] 2 3
           0 [] []); concrete.
Defined.

Lemma makePartitions_cons (nThreads totalGrids : Z) :
  ∃ p ps, makePartitions nThreads totalGrids = p :: ps.
Proof.
  unfold makePartitions. destruct (firstWorkers _ _ _ _) as [items index].
  destruct items as [|item items]; simpl; eauto.
Qed.

(** X13. The allocation of a worker's [shared] item is not checked: when the
    [sharedStructs] array and the world copy are obtained and the first
    [malloc(sizeof(shared))] fails, goi writes through the null pointer and
    has no defined result. *)
Theorem shared_item_failure_is_undefined e nThreads nGenerations startWorld
    nRows nCols nInvasions invasionTimes invasionPlans :
  1 ≤ nThreads →
  sizedGrid startWorld nRows nCols →
  nRows * nCols ≤ INT_MAX →
  alloc_ok e 0 = true → alloc_ok e 1 = true → alloc_ok e 2 = false →
  goi e nThreads nGenerations startWorld nRows nCols nInvasions
    invasionTimes invasionPlans emptyMem = None.
Proof.
  intros Hn Hstart Hmax Hok0 Hok1 Hok2. pose proof Hstart as (Hr & Hc & _).
  unfold goi.
  destruct (Z.ltb_spec nThreads 1) as [?|_]; [lia|].
  destruct (Z.ltb_spec nRows 0) as [?|_]; [lia|].
  destruct (Z.ltb_spec nCols 0) as [?|_]; [lia|]. cbn [orb].
  pose proof (malloc_ok e (λ _, Control) emptyMem Hok0) as E0.
  set (m0 := Mem _ _ _ _) in E0. run E0.
  assert (Hmul : intMul nRows nCols = Some (nRows * nCols)).
  { unfold intMul, INT_MIN.
    destruct (Z.leb_spec (-2147483648) (nRows * nCols)); [|nia].
    by destruct (Z.leb_spec (nRows * nCols) INT_MAX); [|lia]. }
  rewrite Hmul.
  run (eq_refl : liftO (Some (nRows * nCols)) m0 = Some (nRows * nCols, m0)).
  pose proof (malloc_ok e (freshGrid e (nRows * nCols)) m0 Hok1) as E1.
  set (m1 := Mem _ _ _ _) in E1. run E1.
  assert (Hjunk : sizedGrid (garbage e 1 <$> seq 0 (Z.to_nat (nRows * nCols)))
                    nRows nCols)
    by (repeat split; [done..|by rewrite length_fmap, length_seq]).
  pose proof (copyInto_spec 1 startWorld _ nRows nCols m1
                (lookup_insert_eq _ _ _) Hjunk Hstart) as E2.
  set (m2 := Mem _ _ _ _) in E2. change (brk m0) with 1%nat. run E2.
  destruct (makePartitions_cons nThreads (nRows * nCols)) as (p & ps & ->).
  cbn [allocItems].
  pose proof (malloc_fails e (λ _, Control) m2 Hok2) as E3.
  set (m3 := Mem _ _ _ _) in E3.
  unfold mbind at 1. unfold M_bind at 1.
  unfold mbind at 1. unfold M_bind at 1. by rewrite E3.
Qed.

Lemma shared_item_failure_is_undefined_witness :
  goi (failingAt 2) 2 3 [0; 0; 0; 1; 1; 1; 0; 0; 0] 3 3 0 [] [] emptyMem = None.
Proof.
  apply (shared_item_failure_is_undefined (failingAt 2) 2 3
           [0; 0; 0; 1; 1; 1; 0; 0; 0] 3 3 0 [] []); concrete.
Defined.

Lemma workerCell_toll world inv nRows nCols i st st' :
  workerCell world inv nRows nCols i st = Some st' → st.2 ≤ st'.2.
Proof.
  unfold workerCell. destruct st as [next toll].
  destruct (getRow nRows nCols i) as [row|]; [|done].
  destruct (getCol nRows nCols i) as [col|]; [|done].
  cbn [mbind option_bind].
  destruct (getNextState world inv nRows nCols row col) as [[v died]|];
    [|done].
  cbn [mbind option_bind].
  destruct (setValueAt next nRows nCols row col v) as [next'|]; [|done].
  cbn [mbind option_bind]. destruct died.
  - unfold incrToll. destruct (toll <? INT_MAX); [|done].
    cbn [mbind option_bind]. intros [= <-]. simpl. lia.
  - intros [= <-]. simpl. lia.
Qed.

Lemma forLoop_toll (body : Z → list Z * Z → option (list Z * Z))
    (n : nat) (i : Z) (st st' : list Z * Z) :
  (∀ j s s', body j s = Some s' → s.2 ≤ s'.2) →
  forLoop n i body st = Some st' → st.2 ≤ st'.2.
Proof.
  intros Hbody. revert i st.
  induction n as [|n IH]; intros i st; simpl; [by intros [= <-]|].
  destruct (body i st) as [s1|] eqn:E1; [|done]. cbn [mbind option_bind].
  intros E. apply Hbody in E1. apply IH in E. lia.
Qed.

Lemma runWorkers_toll world inv nRows nCols parts st st' :
  runWorkers world inv nRows nCols parts st = Some st' → st.2 ≤ st'.2.
Proof.
  revert st. induction parts as [|p parts IH]; intros st; simpl;
    [by intros [= <-]|].
  destruct (subroutineStep world inv nRows nCols p st) as [s1|] eqn:E1;
    [|done].
  cbn [mbind option_bind]. intros E. apply IH in E.
  unfold subroutineStep, forRange in E1.
  apply forLoop_toll in E1; [lia|]. intros j s s'. apply workerCell_toll.
Qed.

(** A generation never lowers the toll, and returns from goi early only with
    -1. *)
Lemma generation_toll e nThreads nRows nCols totalGrids nInvasions
    invasionTimes invasionPlans parts i s m r m' :
  generation e nThreads nRows nCols totalGrids nInvasions invasionTimes
    invasionPlans parts i s m = Some (r, m') →
  match r with
  | inl s' => deathToll s ≤ deathToll s'
  | inr result => ∀ v, result = Returned v → v = -1
  end.
Proof.
  unfold generation. intros H. step H.
  destruct a as [[inv invasionIndex']|].
  - step H. destruct a as [wholeNewWorld|].
    + destruct (negb (spawnThreads s) && negb (createThreads e nThreads)).
      { step H. by apply ret_inv in H as [-> _]. }
      do 4 step H.
      match goal with
      | Hx : liftO (runWorkers _ _ _ _ _ _) _ = Some _ |- _ =>
          apply liftO_inv in Hx as [Hx _]; apply runWorkers_toll in Hx;
          rename Hx into Hmono
      end.
      match goal with
      | x : (list Z * Z)%type |- _ => destruct x as [next' toll']
      end.
      do 4 step H. by apply ret_inv in H as [-> _].
    + do 2 step H. apply ret_inv in H as [-> _]. by intros v [= <-].
  - step H. apply ret_inv in H as [-> _]. by intros v [= <-].
Qed.

Lemma generations_toll e nThreads nRows nCols totalGrids nInvasions
    invasionTimes invasionPlans parts n i s m r m' :
  loopM n i
    (generation e nThreads nRows nCols totalGrids nInvasions invasionTimes
       invasionPlans parts) s m = Some (r, m') →
  match r with
  | inl s' => deathToll s ≤ deathToll s'
  | inr result => ∀ v, result = Returned v → v = -1
  end.
Proof.
  revert i s m. induction n as [|n IH]; intros i s m H.
  - by apply ret_inv in H as [-> _].
  - cbn [loopM] in H. step H. apply generation_toll in E.
    destruct a as [s1|v].
    + step H. apply IH in H. destruct r; [lia|done].
    + by apply ret_inv in H as [-> _].
Qed.

(** X14. The value -1 that goi returns when an allocation fails cannot be
    mistaken for a death toll: whenever goi returns, the value is -1, from an
    early return, or a toll that is not negative. *)
Theorem goi_returns_minus_one_or_a_toll e nThreads nGenerations startWorld
    nRows nCols nInvasions invasionTimes invasionPlans v m :
  goi e nThreads nGenerations startWorld nRows nCols nInvasions invasionTimes
    invasionPlans emptyMem = Some (Returned v, m) →
  v = -1 ∨ 0 ≤ v.
Proof.
  unfold goi. intros H. destruct (_ || _); [done|]. step H.
  destruct a as [sharedStructs|];
    [|step H; by apply ret_inv in H as [[=] _]].
  do 2 step H. destruct a0 as [w|].
  - do 5 step H.
    match goal with
    | Hx : loopM _ _ _ _ _ = Some (?r, _) |- _ =>
        apply generations_toll in Hx; rename Hx into Hmono; destruct r as [s|early]
    end.
    + do 4 step H. apply ret_inv in H as [[= ->] _].
      cbn [deathToll] in Hmono. by right.
    + apply ret_inv in H as [Hv _]. left. by apply Hmono.
  - apply ret_inv in H as [[= ->] _]. by left.
Qed.

Lemma goi_returns_minus_one_or_a_toll_witness :
  ∃ m, goi (plentiful (λ _ _, 7)) 1 1 [1; 2] 1 2 0 [] [] emptyMem
       = Some (Returned 2, m)
       ∧ (2 = -1 ∨ 0 ≤ 2).
Proof.
  eexists. split; [vm_compute; reflexivity|].
  eapply (goi_returns_minus_one_or_a_toll (plentiful (λ _ _, 7)) 1 1 [1; 2]
            1 2 0 [] [] 2).
  vm_compute. reflexivity.
Defined.


(** ** The generation counter *)

(** A loop that completes has incremented its counter after every pass. *)
Lemma loopM_counter {St R : Type} (n : nat) (i : Z) (body : Z → St → M (St + R))
    (s s' : St) (m m' : mem) :
  loopM n i body s m = Some (inl s', m') →
  n = 0%nat ∨ i + Z.of_nat n ≤ INT_MAX.
Proof.
  revert i s m. induction n as [|n IH]; intros i s m H; [by left|right].
  cbn [loopM] in H. step H. destruct a as [s1|v].
  - step H. apply liftO_inv in E0 as [Ei _]. unfold intSucc in Ei.
    destruct (Z.ltb_spec i INT_MAX); [|done]. injection Ei as <-.
    apply IH in H as [->|H]; lia.
  - by apply ret_inv in H as [[=] _].
Qed.

Lemma generation_early e nThreads nRows nCols totalGrids nInvasions
    invasionTimes invasionPlans parts i s m result m' :
  generation e nThreads nRows nCols totalGrids nInvasions invasionTimes
    invasionPlans parts i s m = Some (inr result, m') →
  result = Returned (-1) ∨ result = Exited (-1).
Proof.
  unfold generation. intros H. step H.
  destruct a as [[inv invasionIndex']|].
  - step H. destruct a as [wholeNewWorld|].
    + destruct (negb (spawnThreads s) && negb (createThreads e nThreads)).
      { step H. apply ret_inv in H as [[= ->] _]. by right. }
      do 4 step H.
      match goal with
      | x : (list Z * Z)%type |- _ => destruct x as [next' toll']
      end.
      do 4 step H. by apply ret_inv in H as [[=] _].
    + do 2 step H. apply ret_inv in H as [[= ->] _]. by left.
  - step H. apply ret_inv in H as [[= ->] _]. by left.
Qed.

Lemma generations_early e nThreads nRows nCols totalGrids nInvasions
    invasionTimes invasionPlans parts n i s m result m' :
  loopM n i
    (generation e nThreads nRows nCols totalGrids nInvasions invasionTimes
       invasionPlans parts) s m = Some (inr result, m') →
  result = Returned (-1) ∨ result = Exited (-1).
Proof.
  revert i s m. induction n as [|n IH]; intros i s m H.
  - by apply ret_inv in H as [[=] _].
  - cbn [loopM] in H. step H. destruct a as [s1|v].
    + step H. by apply IH in H.
    + apply ret_inv in H as [[= ->] _]. by apply generation_early in E.
Qed.

(** X20. The generation counter is an int that is incremented after every
    generation, the last one included: a call for INT_MAX generations cannot
    run to completion, since the increment after generation INT_MAX is
    undefined.  Whenever goi has a defined result on such a call, it is the
    -1 of an early return or the exit with -1, never a death toll. *)
Theorem int_max_generations_never_complete e nThreads nGenerations startWorld
    nRows nCols nInvasions invasionTimes invasionPlans m0 r m :
  INT_MAX ≤ nGenerations →
  goi e nThreads nGenerations startWorld nRows nCols nInvasions invasionTimes
    invasionPlans m0 = Some (r, m) →
  r = Returned (-1) ∨ r = Exited (-1).
Proof.
  intros Hgen. unfold goi. intros H. destruct (_ || _); [done|]. step H.
  destruct a as [sharedStructs|];
    [|step H; apply ret_inv in H as [-> _]; by right].
  do 2 step H. destruct a0 as [w|].
  - do 5 step H.
    match goal with
    | Hx : loopM _ _ _ _ _ = Some (?x, _) |- _ => destruct x as [s|early]
    end.
    + match goal with
      | Hx : loopM _ _ _ _ _ = Some _ |- _ => apply loopM_counter in Hx as [Hx|Hx]
      end; unfold INT_MAX in *; lia.
    + apply ret_inv in H as [-> _].
      match goal with
      | Hx : loopM _ _ _ _ _ = Some _ |- _ => by apply generations_early in Hx
      end.
  - apply ret_inv in H as [-> _]. by left.
Qed.

Lemma int_max_generations_never_complete_witness :
  ∃ m,
    goi (failingAt 1) 2 INT_MAX blinker 3 3 0 [] [] emptyMem
    = Some (Returned (-1), m)
    ∧ (Returned (-1) = Returned (-1) ∨ Returned (-1) = Exited (-1)).
Proof.
  eexists. split; [vm_compute; reflexivity|].
  eapply (int_max_generations_never_complete (failingAt 1) 2 INT_MAX blinker
            3 3 0 [] [] emptyMem (Returned (-1))); [lia|].
  vm_compute. reflexivity.
Defined.


(** * Further properties of the index arithmetic *)

(** X15. [getRow] and [getCol] invert the row-major flattening: for a grid
    with at least one column and an index that is not negative they return
    the one row and column, with the column inside the grid, whose cell has
    that index, and the row is inside the grid exactly when the index is
    below the number of cells; conversely they give back the row and column
    of every flattened cell. *)
Theorem row_col_round_trip nRows nCols index :
  0 < nCols → 0 ≤ index →
  (∃ row col,
     getRow nRows nCols index = Some row
     ∧ getCol nRows nCols index = Some col
     ∧ cellIndex nCols row col = index
     ∧ 0 ≤ row ∧ 0 ≤ col < nCols
     ∧ (row < nRows ↔ index < nRows * nCols))
  ∧ (∀ row col, 0 ≤ row → 0 ≤ col < nCols →
       getRow nRows nCols (cellIndex nCols row col) = Some row
       ∧ getCol nRows nCols (cellIndex nCols row col) = Some col).
Proof.
  intros Hcols Hindex. split.
  - unfold getRow, getCol, cellIndex.
    destruct (Z.eqb_spec nCols 0); [lia|].
    rewrite Z.quot_div_nonneg, Z.rem_mod_nonneg by lia.
    pose proof (Z.div_mod index nCols ltac:(lia)) as Hdm.
    pose proof (Z.mod_pos_bound index nCols ltac:(lia)) as Hmb.
    assert (0 ≤ index / nCols) by (apply Z.div_pos; lia).
    eexists _, _. repeat split; try done; try lia; nia.
  - intros row col Hrow Hcol. unfold getRow, getCol, cellIndex.
    destruct (Z.eqb_spec nCols 0); [lia|].
    rewrite Z.quot_div_nonneg, Z.rem_mod_nonneg by nia.
    split; f_equal; symmetry.
    + apply (Z.div_unique_pos _ _ row col); lia.
    + apply (Z.mod_unique_pos _ _ row col); lia.
Qed.

Lemma row_col_round_trip_witness :
  (∃ row col,
     getRow 3 4 7 = Some row
     ∧ getCol 3 4 7 = Some col
     ∧ cellIndex 4 row col = 7
     ∧ 0 ≤ row ∧ 0 ≤ col < 4
     ∧ (row < 3 ↔ 7 < 3 * 4))
  ∧ (∀ row col, 0 ≤ row → 0 ≤ col < 4 →
       getRow 3 4 (cellIndex 4 row col) = Some row
       ∧ getCol 3 4 (cellIndex 4 row col) = Some col).
Proof. apply (row_col_round_trip 3 4 7); lia. Defined.

(** X16. With more threads than cells the integer division gives the first
    [nThreads - 1] workers nothing to do: their partitions are all the empty
    range [0, 0), and the last worker gets the whole grid. *)
Theorem more_threads_than_cells (nThreads totalGrids : Z) :
  0 ≤ totalGrids → totalGrids < nThreads →
  makePartitions nThreads totalGrids
  = replicate (Z.to_nat (nThreads - 1)) (Partition 0 0)
    ++ [Partition 0 totalGrids].
Proof.
  intros Htot Hmore.
  assert (Hsize : totalGrids ÷ nThreads = 0) by (apply Z.quot_small; lia).
  apply list_eq. intros t.
  destruct (makePartitions nThreads totalGrids !! t) as [p|] eqn:E.
  - apply makePartitions_lookup in E; [|lia..]. rewrite Hsize in E.
    destruct E as [[Ht ->]|[Ht ->]].
    + rewrite lookup_app_l by (rewrite length_replicate; lia).
      rewrite lookup_replicate_2 by lia. by rewrite !Z.mul_0_r.
    + rewrite lookup_app_r by (rewrite length_replicate; lia).
      rewrite length_replicate.
      replace (t - Z.to_nat (nThreads - 1))%nat with 0%nat by lia.
      by rewrite Z.mul_0_r.
  - apply lookup_ge_None_1 in E.
    rewrite makePartitions_length in E by lia. symmetry.
    apply lookup_ge_None_2. rewrite length_app, length_replicate. simpl. lia.
Qed.

Lemma more_threads_than_cells_witness :
  makePartitions 5 3
  = replicate (Z.to_nat (5 - 1)) (Partition 0 0) ++ [Partition 0 3].
Proof. apply (more_threads_than_cells 5 3); lia. Defined.


(** * Further properties of the invasions *)

Lemma bind_ext {A B : Type} (c c' : M A) (f g : A → M B) (m : mem) :
  c m = c' m →
  (∀ a m1, c' m = Some (a, m1) → f a m1 = g a m1) →
  (c ≫= f) m = (c' ≫= g) m.
Proof.
  intros Hc Hf. unfold mbind, M_bind. rewrite Hc.
  destruct (c' m) as [[a m1]|]; [|done]. by apply Hf.
Qed.

(** A pending first entry whose time has passed yields no overlay and does
    not move the index, like an empty schedule. *)
Lemma materialize_stale e nRows nCols totalGrids nInvasions invasionTimes
    invasionPlans time i m :
  invasionTimes !! 0%nat = Some time →
  time < i →
  materialize e nRows nCols totalGrids nInvasions invasionTimes invasionPlans
    i 0 m
  = materialize e nRows nCols totalGrids 0 [] [] i 0 m.
Proof.
  intros Htime Hlt. unfold materialize.
  change (0 <? 0) with false. change (Z.to_nat 0) with 0%nat.
  rewrite Htime. cbn iota.
  destruct (0 <? nInvasions); [|done].
  unfold mbind, M_bind, liftO. by destruct (Z.eqb_spec i time); [lia|].
Qed.

Lemma generation_keeps_index e nThreads nRows nCols totalGrids parts i s m s'
    m' :
  generation e nThreads nRows nCols totalGrids 0 [] [] parts i s m
  = Some (inl s', m') →
  invasionIndex s' = invasionIndex s.
Proof.
  unfold generation, materialize. intros H.
  destruct (invasionIndex s <? 0); [done|].
  step H. apply ret_inv in E as [-> ->].
  step H. destruct a as [wholeNewWorld|].
  - destruct (negb (spawnThreads s) && negb (createThreads e nThreads)).
    { step H. by apply ret_inv in H as [[=] _]. }
    do 4 step H.
    match goal with
    | x : (list Z * Z)%type |- _ => destruct x as [next' toll']
    end.
    do 4 step H. by apply ret_inv in H as [[= ->] _].
  - do 2 step H. by apply ret_inv in H as [[=] _].
Qed.

Lemma generations_stale e nThreads nRows nCols totalGrids nInvasions
    invasionTimes invasionPlans parts time n i s m :
  invasionTimes !! 0%nat = Some time →
  time < i →
  invasionIndex s = 0 →
  loopM n i
    (generation e nThreads nRows nCols totalGrids nInvasions invasionTimes
       invasionPlans parts) s m
  = loopM n i
      (generation e nThreads nRows nCols totalGrids 0 [] [] parts) s m.
Proof.
  intros Htime. revert i s m.
  induction n as [|n IH]; intros i s m Hlt Hidx; [done|].
  cbn [loopM]. apply bind_ext.
  - unfold generation. rewrite Hidx. apply bind_ext; [|done].
    by apply materialize_stale with time.
  - intros [s'|result] m1 E; [|done].
    apply generation_keeps_index in E.
    apply bind_ext; [done|]. intros i' m2 Ei.
    apply liftO_inv in Ei as [Ei _]. unfold intSucc in Ei.
    destruct (i <? INT_MAX); [|done]. injection Ei as <-.
    apply IH; [lia|congruence].
Qed.

(** X17. The schedule is consumed strictly in order and an entry is applied
    only in the generation that equals its time: when the first invasion
    time is below 1, no generation ever matches it, the invasion index never
    advances, and goi does exactly what it does without any invasion
    (same result, same observed worlds, same memory, defined or not),
    however many invasions follow in the schedule, for every input,
    every outcome of the allocations and thread creations and every
    initial memory. *)
Theorem stale_invasion_blocks_the_schedule e nThreads nGenerations
    startWorld nRows nCols nInvasions invasionTimes invasionPlans time m :
  invasionTimes !! 0%nat = Some time →
  time < 1 →
  goi e nThreads nGenerations startWorld nRows nCols nInvasions invasionTimes
    invasionPlans m
  = goi e nThreads nGenerations startWorld nRows nCols 0 [] [] m.
Proof.
  intros Htime Hstale. unfold goi. destruct (_ || _); [done|].
  apply bind_ext; [done|]. intros [sharedStructs|] m1 _; [|done].
  apply bind_ext; [done|]. intros totalGrids m2 _.
  apply bind_ext; [done|]. intros [w|] m3 _; [|done].
  apply bind_ext; [done|]. intros _ m4 _.
  apply bind_ext; [done|]. intros items m5 _.
  apply bind_ext; [done|]. intros world0 m6 _.
  apply bind_ext; [done|]. intros _ m7 _.
  apply bind_ext; [|done].
  by apply generations_stale with time.
Qed.

Lemma stale_invasion_blocks_the_schedule_witness :
  goi (plentiful (λ _ _, 7)) 2 3 [1; 1; 0; 2] 2 2 2 [0; 2]
    [[0; 3; 0; 0]; [4; 4; 4; 4]] emptyMem
  = goi (plentiful (λ _ _, 7)) 2 3 [1; 1; 0; 2] 2 2 0 [] [] emptyMem.
Proof.
  apply (stale_invasion_blocks_the_schedule (plentiful (λ _ _, 7)) 2 3
           [1; 1; 0; 2] 2 2 2 [0; 2] [[0; 3; 0; 0]; [4; 4; 4; 4]] 0);
    [reflexivity|lia].
Defined.





